(** * CodenamesAI: the turn engine of [codenames/game.py]

    A shallow embedding of [Game._accept_guess] and of the loop of
    [Game.run], with the properties of the turn state machine, of the board
    and of the move history proved over it.

    Conventions of the embedding.
    - Python [str] values are [string]s of 8-bit characters; [str.upper]
      and [str.strip] are defined on the ASCII range.  A statement about
      which answers are accepted or refused is made for answers of that
      range ([ascii_only]).
    - [self.words_on_board] is one list object, mutated in place by
      [_accept_guess]; the local [words_in_play] of [run] is an alias of
      it, so every read of [words_in_play] is a read of the current
      [words_on_board].
    - The four role objects are external.  Each is modelled by the
      sequence of values its methods return, call after call, together
      with the number of calls made so far.  Their setter methods
      ([set_board], [set_clue], [set_game_state], [set_move_history])
      return nothing the engine uses and are left out, as are printing,
      timing and the result files.  The roles are handed the board and
      the history themselves, not copies; they are taken to read them
      only.
    - [get_clue()] returns a number the engine passes through [int];
      it is an integer here, so the [ValueError] of [int] on anything
      else is outside the model.
    - An index is a natural number: [run] passes [_accept_guess] the
      result of [list.index], never a negative subscript. *)

From Stdlib Require Import ZArith Ascii String.
From stdpp Require Import base decidable option list strings.

Open Scope string_scope.

(** ** Strings: [str.upper], [str.strip] *)

Module Str.

Definition is_lower (c : ascii) : bool :=
  let n := Ascii.nat_of_ascii c in ((97 <=? n) && (n <=? 122))%nat.

(** Characters removed by [str.strip()] in the ASCII range:
    TAB, LF, VT, FF, CR, FS, GS, RS, US and the space. *)
Definition is_space (c : ascii) : bool :=
  let n := Ascii.nat_of_ascii c in
  (((9 <=? n) && (n <=? 13)) || ((28 <=? n) && (n <=? 32)))%nat.

Definition upper_char (c : ascii) : ascii :=
  if is_lower c then Ascii.ascii_of_nat (Ascii.nat_of_ascii c - 32)%nat else c.

Fixpoint upper (s : string) : string :=
  match s with
  | EmptyString => EmptyString
  | String c s' => String (upper_char c) (upper s')
  end.

Fixpoint lstrip (s : string) : string :=
  match s with
  | EmptyString => EmptyString
  | String c s' => if is_space c then lstrip s' else s
  end.

Fixpoint rstrip (s : string) : string :=
  match s with
  | EmptyString => EmptyString
  | String c s' =>
      match rstrip s' with
      | EmptyString => if is_space c then EmptyString else String c EmptyString
      | r => String c r
      end
  end.

Definition strip (s : string) : string := rstrip (lstrip s).

(** Does the string hold a lower-case ASCII letter? *)
Fixpoint has_lower (s : string) : bool :=
  match s with
  | EmptyString => false
  | String c s' => is_lower c || has_lower s'
  end.

End Str.

(** ** Lists: [list.index], [list.count] *)

(** [l.index(x)]: the position of the first element equal to [x];
    [None] stands for the [ValueError] Python raises when there is none. *)
Fixpoint index (x : string) (l : list string) : option nat :=
  match l with
  | [] => None
  | y :: l' => if decide (y = x) then Some 0%nat else S <$> index x l'
  end.

(** [l.count(x)] *)
Fixpoint count (x : string) (l : list string) : nat :=
  match l with
  | [] => 0%nat
  | y :: l' => ((if decide (y = x) then 1 else 0) + count x l')%nat
  end.

(** ** The data of a game *)

Inductive GameCondition := RED_TURN | BLUE_TURN | RED_WIN | BLUE_WIN.

#[global] Instance GameCondition_eq_dec : EqDecision GameCondition.
Proof. solve_decision. Defined.

(** The exceptions the engine lets escape: [ValueError] from [list.index],
    [IndexError] from a subscript out of range. *)
Inductive Exception := ValueError | IndexError.

(** An entry of [move_history].  The source appends a Python list:
    [[team+"_Codemaster", clue, clue_num]] or
    [[team+"_Guesser", guess_answer, words_on_board[i], keep_guessing]]. *)
Inductive Move :=
| CodemasterMove (who : string) (clue : string) (clue_num : Z)
| GuesserMove (who : string) (guess_answer : string) (revealed : string)
    (keep_guessing : bool).

(** A clue-giver: what [get_clue()] returns at its n-th call, and the
    number of calls made. *)
Record Codemaster := mkCodemaster {
  clue_script : nat -> string * Z;
  clues_given : nat
}.

Definition get_clue (c : Codemaster) : (string * Z) * Codemaster :=
  (clue_script c (clues_given c),
   mkCodemaster (clue_script c) (S (clues_given c))).

(** A guesser: what [get_answer()] and [keep_guessing()] return at their
    n-th call ([None] is Python's [None]), and the calls made. *)
Record Guesser := mkGuesser {
  answer_script : nat -> option string;
  keep_script : nat -> bool;
  answers_given : nat;
  keeps_given : nat
}.

Definition get_answer (g : Guesser) : option string * Guesser :=
  (answer_script g (answers_given g),
   mkGuesser (answer_script g) (keep_script g) (S (answers_given g)) (keeps_given g)).

Definition keep_guessing (g : Guesser) : bool * Guesser :=
  (keep_script g (keeps_given g),
   mkGuesser (answer_script g) (keep_script g) (answers_given g) (S (keeps_given g))).

(** The attributes of a [Game] object that the engine reads or writes. *)
Record Game := mkGame {
  single_team : bool;
  num_red_words : nat;
  num_blue_words : nat;
  num_civilian_words : nat;
  num_assassin_words : nat;
  move_history : list Move;
  words_on_board : list string;
  key_grid : list string;
  codemaster_red : Codemaster;
  guesser_red : Guesser;
  codemaster_blue : Codemaster;
  guesser_blue : Guesser;
  game_winner : option string
}.

Definition set_words_on_board (self : Game) (w : list string) : Game :=
  mkGame (single_team self) (num_red_words self) (num_blue_words self)
    (num_civilian_words self) (num_assassin_words self) (move_history self)
    w (key_grid self) (codemaster_red self) (guesser_red self)
    (codemaster_blue self) (guesser_blue self) (game_winner self).

Definition set_move_history (self : Game) (h : list Move) : Game :=
  mkGame (single_team self) (num_red_words self) (num_blue_words self)
    (num_civilian_words self) (num_assassin_words self) h
    (words_on_board self) (key_grid self) (codemaster_red self) (guesser_red self)
    (codemaster_blue self) (guesser_blue self) (game_winner self).

Definition set_game_winner (self : Game) (w : option string) : Game :=
  mkGame (single_team self) (num_red_words self) (num_blue_words self)
    (num_civilian_words self) (num_assassin_words self) (move_history self)
    (words_on_board self) (key_grid self) (codemaster_red self) (guesser_red self)
    (codemaster_blue self) (guesser_blue self) w.

(** The team whose roles [run] binds to its locals [current_team],
    [codemaster] and [guesser] at the head of a turn (lines 300-309). *)
Inductive Team := Red | Blue.

#[global] Instance Team_eq_dec : EqDecision Team.
Proof. solve_decision. Defined.

Definition team_name (t : Team) : string :=
  match t with Red => "Red" | Blue => "Blue" end.

Definition codemaster_of (t : Team) (self : Game) : Codemaster :=
  match t with Red => codemaster_red self | Blue => codemaster_blue self end.

Definition guesser_of (t : Team) (self : Game) : Guesser :=
  match t with Red => guesser_red self | Blue => guesser_blue self end.

(** The role object is mutable: a call leaves it in its next state. *)
Definition set_codemaster (t : Team) (c : Codemaster) (self : Game) : Game :=
  mkGame (single_team self) (num_red_words self) (num_blue_words self)
    (num_civilian_words self) (num_assassin_words self) (move_history self)
    (words_on_board self) (key_grid self)
    (match t with Red => c | Blue => codemaster_red self end) (guesser_red self)
    (match t with Red => codemaster_blue self | Blue => c end) (guesser_blue self)
    (game_winner self).

Definition set_guesser (t : Team) (g : Guesser) (self : Game) : Game :=
  mkGame (single_team self) (num_red_words self) (num_blue_words self)
    (num_civilian_words self) (num_assassin_words self) (move_history self)
    (words_on_board self) (key_grid self)
    (codemaster_red self) (match t with Red => g | Blue => guesser_red self end)
    (codemaster_blue self) (match t with Red => guesser_blue self | Blue => g end)
    (game_winner self).

(** ** [Game.__init__]

    The constructor draws the board and the key with [random.shuffle]; the
    two shuffled lists are arguments here: [temp] is the shuffled word
    pool, [shuffled_key] the list built at lines 111-112 after its
    shuffle. *)
Definition unshuffled_key (n_red n_blue n_civilian n_assassin : nat) : list string :=
  replicate n_red "Red" ++ replicate n_blue "Blue" ++
  replicate n_civilian "Civilian" ++ replicate n_assassin "Assassin".

Definition __init__ (codemaster_red : Codemaster) (guesser_red : Guesser)
    (codemaster_blue : Codemaster) (guesser_blue : Guesser)
    (single_team : bool) (temp shuffled_key : list string) : Game :=
  mkGame single_team 9 8 7 1 [] (take 25 temp) shuffled_key
    codemaster_red guesser_red codemaster_blue guesser_blue None.

(** ** [Game._accept_guess] *)

Inductive Result (A : Type) :=
| Ok (a : A)
| Raise (e : Exception).
Arguments Ok {A} a.
Arguments Raise {A} e.

(** Lines 193-221.  The subscripts [key_grid[guess_index]] and
    [words_on_board[guess_index] = ...] raise [IndexError] out of range. *)
Definition _accept_guess (self : Game) (guess_index : nat)
    (game_condition : GameCondition) : Result (GameCondition * Game) :=
  match key_grid self !! guess_index with
  | None => Raise IndexError
  | Some key =>
      if decide (length (words_on_board self) <= guess_index)%nat then Raise IndexError
      else if decide (key = "Red") then
        let self := set_words_on_board self (<[guess_index := "*Red*"]> (words_on_board self)) in
        if decide (num_red_words self <= count "*Red*" (words_on_board self))%nat
        then Ok (RED_WIN, self)
        else Ok (RED_TURN, self)
      else if decide (key = "Blue") then
        let self := set_words_on_board self (<[guess_index := "*Blue*"]> (words_on_board self)) in
        if decide (num_blue_words self <= count "*Blue*" (words_on_board self))%nat
        then Ok (BLUE_WIN, self)
        else Ok (BLUE_TURN, self)
      else if decide (key = "Assassin") then
        let self := set_words_on_board self (<[guess_index := "*Assassin*"]> (words_on_board self)) in
        if decide (game_condition = RED_TURN) then Ok (BLUE_WIN, self)
        else Ok (RED_WIN, self)
      else
        let self := set_words_on_board self (<[guess_index := "*Civilian*"]> (words_on_board self)) in
        if decide (game_condition = RED_TURN) then Ok (BLUE_TURN, self)
        else Ok (RED_TURN, self)
  end.

(** ** [Game.run]

    The loop is cut at the calls of [get_clue] and [get_answer]: one step
    is either the head of a turn (lines 298-329, up to the clue), one pass
    through the guessing loop (lines 333-363), or the exit of [run]
    (lines 366-377). *)

Inductive Pc :=
| OuterLoop                      (* at the test of line 298 *)
| InnerLoop (current_team : Team) (clue : string) (clue_num : Z)
                                 (* at line 331, [keep_guessing] true *)
| Finished.                      (* [run] has returned *)

(** [self] and the locals of [run]. *)
Record Run := mkRun {
  self : Game;
  game_condition : GameCondition;
  turn_counter : nat;
  pc : Pc
}.

Inductive Outcome :=
| Running (r : Run)               (* the step was taken *)
| Raised (e : Exception) (r : Run) (* an exception left [run], in state [r] *)
| Stopped.                        (* [run] had returned already *)

(** Lines 286-296. *)
Definition start (g : Game) : Run := mkRun g RED_TURN 0 OuterLoop.

(** Line 298. *)
Definition game_over (c : GameCondition) : bool :=
  negb (bool_decide (c <> BLUE_WIN) && bool_decide (c <> RED_WIN)).

(** Line 339. *)
Definition no_guess (guess_answer : option string) : bool :=
  match guess_answer with
  | None => true
  | Some a => bool_decide (a = "no comparisons")
  end.

(** Lines 351-355. *)
Definition pass_turn (keep : bool) (c : GameCondition) : GameCondition :=
  if negb keep then
    if decide (c = RED_TURN) then BLUE_TURN
    else if decide (c = BLUE_TURN) then RED_TURN
    else c
  else c.

(** Lines 361-363. *)
Definition single_team_rule (single : bool) (c : GameCondition) : GameCondition :=
  if single && bool_decide (c = BLUE_TURN) then RED_TURN else c.

(** Lines 300-329: the roles of the turn are bound, the clue is asked for
    and recorded, the turn is counted. *)
Definition clue_turn (r : Run) : Run :=
  let current_team := if decide (game_condition r = RED_TURN) then Red else Blue in
  let '((clue, clue_num), codemaster) := get_clue (codemaster_of current_team (self r)) in
  let g := set_codemaster current_team codemaster (self r) in
  let g := set_move_history g
             (move_history g ++
              [CodemasterMove (team_name current_team +:+ "_Codemaster") clue clue_num]) in
  mkRun g (game_condition r) (S (turn_counter r)) (InnerLoop current_team clue clue_num).

(** Lines 344-363: what [run] does with the verdict of [_accept_guess];
    [g] is the game after the reveal. *)
Definition after_guess (current_team : Team) (clue : string) (clue_num : Z)
    (answer : string) (guess_answer_index : nat)
    (game_condition_result : GameCondition) (g : Game) (r : Run) : Run :=
  let revealed := default "" (words_on_board g !! guess_answer_index) in
  if decide (game_condition r = game_condition_result) then
    let '(keep, guesser) := keep_guessing (guesser_of current_team g) in
    let g := set_guesser current_team guesser g in
    let g := set_move_history g
               (move_history g ++
                [GuesserMove (team_name current_team +:+ "_Guesser") answer revealed keep]) in
    let c := single_team_rule (single_team g) (pass_turn keep (game_condition r)) in
    mkRun g c (turn_counter r)
      (if keep then InnerLoop current_team clue clue_num else OuterLoop)
  else
    let g := set_move_history g
               (move_history g ++
                [GuesserMove (team_name current_team +:+ "_Guesser") answer revealed false]) in
    let c := single_team_rule (single_team g) game_condition_result in
    mkRun g c (turn_counter r) OuterLoop.

(** Lines 333-363: one pass through [while keep_guessing]. *)
Definition guess_turn (current_team : Team) (clue : string) (clue_num : Z)
    (r : Run) : Outcome :=
  let '(guess_answer, guesser) := get_answer (guesser_of current_team (self r)) in
  let g := set_guesser current_team guesser (self r) in
  match guess_answer with
  | None => Running (mkRun g (game_condition r) (turn_counter r) OuterLoop)
  | Some answer =>
      if no_guess guess_answer
      then Running (mkRun g (game_condition r) (turn_counter r) OuterLoop)
      else
        match index (Str.strip (Str.upper answer)) (words_on_board g) with
        | None => Raised ValueError (mkRun g (game_condition r) (turn_counter r) (pc r))
        | Some guess_answer_index =>
            match _accept_guess g guess_answer_index (game_condition r) with
            | Raise e => Raised e (mkRun g (game_condition r) (turn_counter r) (pc r))
            | Ok (game_condition_result, g') =>
                Running (after_guess current_team clue clue_num answer
                           guess_answer_index game_condition_result g' r)
            end
        end
  end.

(** Lines 366-377: the winner is named and [run] returns. *)
Definition finish (r : Run) : Run :=
  let g := set_game_winner (self r)
             (Some (if decide (game_condition r = RED_WIN) then "R" else "B")) in
  mkRun g (game_condition r) (turn_counter r) Finished.

Definition step (r : Run) : Outcome :=
  match pc r with
  | OuterLoop => if game_over (game_condition r) then Running (finish r)
                 else Running (clue_turn r)
  | InnerLoop current_team clue clue_num => guess_turn current_team clue clue_num r
  | Finished => Stopped
  end.

(** [n] steps, stopping at the first that is not taken. *)
Fixpoint steps (n : nat) (r : Run) : Outcome :=
  match n with
  | O => Running r
  | S n' => match step r with
            | Running r' => steps n' r'
            | o => o
            end
  end.

(** The states [run] goes through on game [g]. *)
Inductive Reachable (g : Game) : Run -> Prop :=
| reach_start : Reachable g (start g)
| reach_step r r' : Reachable g r -> step r = Running r' -> Reachable g r'.

(** A role that answers from a finite list, then with a default. *)
Definition script {A : Type} (l : list A) (d : A) : nat -> A :=
  fun n => nth n l d.

(** ** Reveal markers *)

(** The label [_accept_guess] writes over a cell whose key is [k]. *)
Definition marker_of (k : string) : string :=
  if decide (k = "Red") then "*Red*"
  else if decide (k = "Blue") then "*Blue*"
  else if decide (k = "Assassin") then "*Assassin*"
  else "*Civilian*".

Definition markers : list string := ["*Red*"; "*Blue*"; "*Assassin*"; "*Civilian*"].

Definition is_marker (w : string) : bool := bool_decide (w ∈ markers).

(** The number of revealed cells of a board. *)
Definition revealed_cells (board : list string) : nat :=
  length (filter (λ w, is_marker w = true) board).

(** A sample game: a board of 25 words and a key with the quotas of
    [__init__]; the roles are given by their scripts. *)
Module Sample.

Definition pool : list string :=
  ["APPLE"; "BANK"; "CAT"; "DOG"; "EAGLE"; "FAN"; "GOLD"; "HORN"; "ICE";
   "JET"; "KING"; "LION"; "MOON"; "NET"; "OIL"; "PAN"; "QUEEN"; "ROCK";
   "SUN"; "TREE"; "UNIT"; "VAN"; "WALL"; "YARD"; "ZOO"; "SPARE"].

(** cells 0-8 red, 9-16 blue, 17-23 civilian, 24 the assassin *)
Definition key : list string := unshuffled_key 9 8 7 1.

Definition game (single : bool) (clues_r clues_b : list (string * Z))
    (answers_r : list (option string)) (keeps_r : list bool)
    (answers_b : list (option string)) (keeps_b : list bool) : Game :=
  __init__ (mkCodemaster (script clues_r ("pass", 0%Z)) 0)
           (mkGuesser (script answers_r None) (script keeps_r false) 0 0)
           (mkCodemaster (script clues_b ("pass", 0%Z)) 0)
           (mkGuesser (script answers_b None) (script keeps_b false) 0 0)
           single pool key.

End Sample.

(** ** The vocabulary of the statements *)

Definition turn_of (t : Team) : GameCondition :=
  match t with Red => RED_TURN | Blue => BLUE_TURN end.

Definition other (t : Team) : Team :=
  match t with Red => Blue | Blue => Red end.

Definition win_of (t : Team) : GameCondition :=
  match t with Red => RED_WIN | Blue => BLUE_WIN end.

Definition acting_team (c : GameCondition) : Team :=
  if decide (c = RED_TURN) then Red else Blue.

(** The quota of a team, and the label of its cells. *)
Definition quota (t : Team) (g : Game) : nat :=
  match t with Red => num_red_words g | Blue => num_blue_words g end.

Definition own_marker (t : Team) : string :=
  match t with Red => "*Red*" | Blue => "*Blue*" end.

(** The game once the guesser of team [t] has been asked for an answer. *)
Definition asked (t : Team) (g : Game) : Game :=
  set_guesser t (get_answer (guesser_of t g)).2 g.

Definition answer_of (t : Team) (g : Game) : option string :=
  (get_answer (guesser_of t g)).1.

(** What [keep_guessing()] of team [t]'s guesser returns when asked next. *)
Definition keep_of (t : Team) (g : Game) : bool :=
  (keep_guessing (guesser_of t g)).1.

(** What [get_clue()] of team [t]'s clue-giver returns when asked next. *)
Definition clue_of (t : Team) (g : Game) : string * Z :=
  (get_clue (codemaster_of t g)).1.

Inductive StepCase (r r' : Run) : Prop :=
| case_finish :
    pc r = OuterLoop -> game_over (game_condition r) = true ->
    r' = finish r -> StepCase r r'
| case_clue :
    pc r = OuterLoop -> game_over (game_condition r) = false ->
    r' = clue_turn r -> StepCase r r'
| case_no_guess t clue n :
    pc r = InnerLoop t clue n -> no_guess (answer_of t (self r)) = true ->
    r' = mkRun (asked t (self r)) (game_condition r) (turn_counter r) OuterLoop ->
    StepCase r r'
| case_guess t clue n answer i res g' :
    pc r = InnerLoop t clue n -> answer_of t (self r) = Some answer ->
    answer <> "no comparisons" ->
    index (Str.strip (Str.upper answer)) (words_on_board (self r)) = Some i ->
    _accept_guess (asked t (self r)) i (game_condition r) = Ok (res, g') ->
    r' = after_guess t clue n answer i res g' r ->
    StepCase r r'.

(** The state a run of game [g] is in after [m] steps (the start if it has
    stopped or failed before). *)
Definition state_after (m : nat) (g : Game) : Run :=
  match steps m (start g) with
  | Running r => r
  | _ => start g
  end.

Inductive Setup : Game -> Prop :=
| setup_init cmr gr cmb gb single temp key :
    NoDup temp ->                          (* the assertion of line 106 *)
    Forall (λ w, w ∉ markers) temp ->      (* the pool holds words, not labels *)
    key ≡ₚ unshuffled_key 9 8 7 1 ->       (* line 113 shuffles the key *)
    Setup (__init__ cmr gr cmb gb single temp key).

Record SetupFacts (g : Game) : Prop := {
  setup_history : move_history g = [];
  setup_red : num_red_words g = 9%nat;
  setup_blue : num_blue_words g = 8%nat;
  setup_civilian : num_civilian_words g = 7%nat;
  setup_assassin : num_assassin_words g = 1%nat;
  setup_key : key_grid g ≡ₚ unshuffled_key 9 8 7 1;
  setup_nodup : NoDup (words_on_board g);
  setup_plain : Forall (λ w, w ∉ markers) (words_on_board g);
  setup_length : (length (words_on_board g) <= length (key_grid g))%nat
}.

Definition is_clue_entry (m : Move) : bool :=
  match m with CodemasterMove _ _ _ => true | GuesserMove _ _ _ _ => false end.

(** The clue events and the guess events of a history. *)
Definition clue_entries (h : list Move) : nat :=
  length (filter (λ m, is_clue_entry m = true) h).

Definition guess_entries (h : list Move) : nat :=
  length (filter (λ m, is_clue_entry m = false) h).

Record Inv (g : Game) (r : Run) : Prop := {
  inv_single : single_team (self r) = single_team g;
  inv_red : num_red_words (self r) = num_red_words g;
  inv_blue : num_blue_words (self r) = num_blue_words g;
  inv_civilian : num_civilian_words (self r) = num_civilian_words g;
  inv_assassin : num_assassin_words (self r) = num_assassin_words g;
  inv_key : key_grid (self r) = key_grid g;
  inv_length : length (words_on_board (self r)) = length (words_on_board g);
  (* a cell shows its word, or the label of its key *)
  inv_cells : forall i w, words_on_board (self r) !! i = Some w ->
      words_on_board g !! i = Some w \/
      exists k, key_grid g !! i = Some k /\ w = marker_of k;
  (* inside the guessing loop the phase is the turn of the bound team *)
  inv_pc : match pc r with
           | OuterLoop => True
           | InnerLoop t _ _ => game_condition r = turn_of t
           | Finished => game_over (game_condition r) = true
           end;
  inv_solo : single_team g = true -> game_condition r <> BLUE_TURN;
  inv_red_win : (num_red_words g <= count "*Red*" (words_on_board (self r)))%nat ->
                game_condition r = RED_WIN;
  inv_blue_win : (num_blue_words g <= count "*Blue*" (words_on_board (self r)))%nat ->
                 game_condition r = BLUE_WIN;
  inv_clues : clue_entries (move_history (self r)) = turn_counter r;
  inv_guesses : guess_entries (move_history (self r)) =
                revealed_cells (words_on_board (self r))
}.

(** ** [Game.__init__], lines 104-108: the words of the board

    [lines] are the lines of the word list, [shuffled] is what
    [random.shuffle] makes of them.  [len(set(temp))] is the number of
    distinct lines; [None] stands for the [AssertionError] of line 106. *)
Definition load_words (lines shuffled : list string) : option (list string) :=
  if decide (length lines = length (remove_dups lines))
  then Some (take 25 shuffled)
  else None.

(** ** [Game.write_results], lines 227-240: the tally of the board *)

Record Tally := mkTally {
  red_result : nat;
  blue_result : nat;
  civ_result : nat;
  assa_result : nat
}.

(** The body of the loop, for the cell showing [w]. *)
Definition tally_cell (t : Tally) (w : string) : Tally :=
  if decide (w = "*Red*") then
    mkTally (red_result t + 1) (blue_result t) (civ_result t) (assa_result t)
  else if decide (w = "*Blue*") then
    mkTally (red_result t) (blue_result t + 1) (civ_result t) (assa_result t)
  else if decide (w = "*Civilian*") then
    mkTally (red_result t) (blue_result t) (civ_result t + 1) (assa_result t)
  else if decide (w = "*Assassin*") then
    mkTally (red_result t) (blue_result t) (civ_result t) (assa_result t + 1)
  else t.

Definition tally (self : Game) : Tally :=
  fold_left tally_cell (words_on_board self) (mkTally 0 0 0 0).

(** A string of the ASCII range: every character is below 128.  On such
    strings [Str.upper] and [Str.strip] are Python's [str.upper] and
    [str.strip]; beyond it Python follows the Unicode tables. *)
Fixpoint ascii_only (s : string) : bool :=
  match s with
  | EmptyString => true
  | String c s' => (Ascii.nat_of_ascii c <? 128)%nat && ascii_only s'
  end.


(** The names a cell of the key can hold. *)
Definition key_names : list string := ["Red"; "Blue"; "Civilian"; "Assassin"].

(** ** Reading a history

    [history_ok cur h]: every clue of [h] is tagged with a team's
    clue-giver, every guess with the guesser of the team of the latest clue
    before it ([cur] at the start of [h]); the label recorded with a guess
    is a reveal label, and the flag is true only beside the guesser's own
    label. *)
Definition clue_team (who : string) : option Team :=
  if decide (who = "Red_Codemaster") then Some Red
  else if decide (who = "Blue_Codemaster") then Some Blue
  else None.

Definition guess_ok (cur : option Team) (who w : string) (b : bool) : bool :=
  match cur with
  | Some t =>
      bool_decide (who = team_name t +:+ "_Guesser") && is_marker w &&
      implb b (bool_decide (w = own_marker t))
  | None => false
  end.

Fixpoint history_ok (cur : option Team) (h : list Move) : bool :=
  match h with
  | [] => true
  | CodemasterMove who _ _ :: h' =>
      match clue_team who with
      | Some t => history_ok (Some t) h'
      | None => false
      end
  | GuesserMove who _ w b :: h' => guess_ok cur who w b && history_ok cur h'
  end.

(** The team of the latest clue of [h], [cur] if it has none. *)
Fixpoint last_team (cur : option Team) (h : list Move) : option Team :=
  match h with
  | [] => cur
  | CodemasterMove who _ _ :: h' => last_team (clue_team who) h'
  | GuesserMove _ _ _ _ :: h' => last_team cur h'
  end.

(** ** Guessers that always name a cell *)

(** In state [r], if an answer is due, it is a word of the board. *)
Definition names_a_cell (r : Run) : Prop :=
  forall t clue n, pc r = InnerLoop t clue n ->
    exists answer,
      answer_of t (self r) = Some answer /\ answer <> "no comparisons" /\
      Str.strip (Str.upper answer) ∈ words_on_board (self r).

(** A bound on the steps [run] has left when every answer names a cell:
    two for each guess still possible (its clue and its pass), and the
    exit. *)
Definition steps_left (r : Run) : nat :=
  match pc r with
  | Finished => 0
  | OuterLoop =>
      if game_over (game_condition r) then 1
      else 2 * (23 - guess_entries (move_history (self r))) + 2
  | InnerLoop _ _ _ => 2 * (23 - guess_entries (move_history (self r))) + 1
  end.

(** * Properties *)

(** ** What the engine reads of an answer holds no lower-case letter *)

Module StrFacts.
Import Str.

Lemma upper_char_not_lower c : is_lower (upper_char c) = false.
Proof. destruct c as [[] [] [] [] [] [] [] []]; reflexivity. Qed.

Lemma has_lower_upper s : has_lower (upper s) = false.
Proof.
  induction s as [|c s IH]; simpl; [reflexivity|].
  rewrite upper_char_not_lower, IH. reflexivity.
Qed.

Lemma has_lower_lstrip s : has_lower s = false -> has_lower (lstrip s) = false.
Proof.
  induction s as [|c s IH]; simpl; [auto|].
  intros H. destruct (is_space c); [|exact H].
  apply IH. apply orb_false_iff in H. tauto.
Qed.

Lemma has_lower_rstrip s : has_lower s = false -> has_lower (rstrip s) = false.
Proof.
  induction s as [|c s IH]; simpl; [auto|].
  intros [Hc Hs]%orb_false_iff. specialize (IH Hs).
  destruct (rstrip s) as [|c' r].
  - destruct (is_space c); simpl; [reflexivity|]. rewrite Hc. reflexivity.
  - change (has_lower (String c (String c' r))) with (is_lower c || has_lower (String c' r)).
    rewrite Hc, IH. reflexivity.
Qed.

(** [answer.upper().strip()] *)
Lemma has_lower_normalised answer : has_lower (strip (upper answer)) = false.
Proof.
  unfold strip. apply has_lower_rstrip, has_lower_lstrip, has_lower_upper.
Qed.

End StrFacts.

Lemma marker_has_lower w : w ∈ markers -> Str.has_lower w = true.
Proof.
  unfold markers. rewrite !elem_of_cons, elem_of_nil.
  intros [->|[->|[->|[->|[]]]]]; reflexivity.
Qed.

Lemma marker_of_is_marker k : marker_of k ∈ markers.
Proof.
  unfold marker_of, markers. repeat case_decide; rewrite !elem_of_cons; auto.
Qed.

(** No answer is read as a reveal marker. *)
Lemma normalised_not_marker answer : Str.strip (Str.upper answer) ∉ markers.
Proof.
  intros H%marker_has_lower.
  rewrite StrFacts.has_lower_normalised in H. discriminate.
Qed.

(** ** [index] and [count] *)

Lemma index_Some x l i :
  index x l = Some i -> l !! i = Some x /\ forall j y, (j < i)%nat -> l !! j = Some y -> y <> x.
Proof.
  revert i. induction l as [|y l IH]; simpl; intros i; [discriminate|].
  case_decide as E.
  - intros [= <-]. subst y. split; [reflexivity|]. intros j z Hj. lia.
  - destruct (index x l) as [i'|] eqn:Hi; simpl; [|discriminate].
    intros [= <-]. destruct (IH i' eq_refl) as [H1 H2]. split; [exact H1|].
    intros [|j] z Hj; simpl.
    + intros [= ->]. exact E.
    + apply H2. lia.
Qed.

Lemma index_None x l : index x l = None <-> x ∉ l.
Proof.
  induction l as [|y l IH]; simpl.
  - split; [intros _; apply not_elem_of_nil | reflexivity].
  - case_decide as E.
    + subst y. split; [discriminate|]. intros H. exfalso. apply H. left.
    + destruct (index x l) eqn:Hi; simpl.
      * split; [discriminate|]. intros H. exfalso.
        apply not_elem_of_cons in H as [_ H]. apply IH in H. discriminate.
      * split; [|reflexivity]. intros _. apply not_elem_of_cons. split; [congruence|].
        apply IH. reflexivity.
Qed.

Lemma count_app x l1 l2 : count x (l1 ++ l2) = (count x l1 + count x l2)%nat.
Proof. induction l1 as [|y l1 IH]; simpl; [reflexivity|]. rewrite IH. lia. Qed.

Lemma count_Permutation x l1 l2 : l1 ≡ₚ l2 -> count x l1 = count x l2.
Proof.
  induction 1 as [|y l1 l2 _ IH|y z l|l1 l2 l3 _ IH1 _ IH2]; simpl; [reflexivity|lia|lia|congruence].
Qed.

(** Overwriting cell [i], which held [u], with [v]. *)
Lemma count_insert x (l : list string) i u v :
  l !! i = Some u ->
  (count x (<[i := v]> l) + (if decide (u = x) then 1 else 0)
   = count x l + (if decide (v = x) then 1 else 0))%nat.
Proof.
  revert i. induction l as [|y l IH]; intros [|i]; simpl; try discriminate.
  - intros [= ->]. lia.
  - intros H. specialize (IH i H). lia.
Qed.

Lemma revealed_cells_insert (l : list string) i u v :
  l !! i = Some u ->
  (revealed_cells (<[i := v]> l) + (if is_marker u then 1 else 0)
   = revealed_cells l + (if is_marker v then 1 else 0))%nat.
Proof.
  unfold revealed_cells.
  revert i. induction l as [|y l IH]; intros [|i]; simpl; try discriminate.
  - intros [= ->]. rewrite !filter_cons.
    destruct (is_marker u), (is_marker v); repeat case_decide; simpl; congruence || lia.
  - intros H. specialize (IH i H). rewrite !filter_cons.
    case_decide; simpl; lia.
Qed.

(** ** [_accept_guess], case by case *)

Lemma accept_guess_Ok g i c res g' :
  _accept_guess g i c = Ok (res, g') ->
  exists k,
    key_grid g !! i = Some k /\ (i < length (words_on_board g))%nat /\
    g' = set_words_on_board g (<[i := marker_of k]> (words_on_board g)) /\
    ((k = "Red" /\
      res = if decide (num_red_words g <= count "*Red*" (words_on_board g'))%nat
            then RED_WIN else RED_TURN) \/
     (k = "Blue" /\
      res = if decide (num_blue_words g <= count "*Blue*" (words_on_board g'))%nat
            then BLUE_WIN else BLUE_TURN) \/
     (k = "Assassin" /\
      res = if decide (c = RED_TURN) then BLUE_WIN else RED_WIN) \/
     (k <> "Red" /\ k <> "Blue" /\ k <> "Assassin" /\
      res = if decide (c = RED_TURN) then BLUE_TURN else RED_TURN)).
Proof.
  unfold _accept_guess.
  destruct (key_grid g !! i) as [k|]; [|discriminate].
  destruct (decide (length (words_on_board g) <= i)%nat) as [|Hi]; [discriminate|].
  intros H. exists k. split; [reflexivity|]. split; [lia|].
  unfold marker_of.
  destruct (decide (k = "Red")) as [->|Hr].
  { simpl in H. case_decide; injection H as <- <-;
      (split; [reflexivity|]); left; (split; [reflexivity|]);
      simpl; case_decide; try reflexivity; lia. }
  destruct (decide (k = "Blue")) as [->|Hb].
  { simpl in H. case_decide; injection H as <- <-;
      (split; [reflexivity|]); right; left; (split; [reflexivity|]);
      simpl; case_decide; try reflexivity; lia. }
  destruct (decide (k = "Assassin")) as [->|Ha].
  { case_decide; injection H as <- <-;
      (split; [reflexivity|]); right; right; left; (split; reflexivity). }
  case_decide; injection H as <- <-;
    (split; [reflexivity|]); right; right; right; repeat (split; [assumption|]);
    reflexivity.
Qed.

(** With the board no longer than the key, no subscript is out of range. *)
Lemma accept_guess_no_raise g i c :
  (i < length (words_on_board g))%nat ->
  (length (words_on_board g) <= length (key_grid g))%nat ->
  exists res g', _accept_guess g i c = Ok (res, g').
Proof.
  intros Hi Hlen. unfold _accept_guess.
  destruct (key_grid g !! i) as [k|] eqn:Hk.
  - destruct (decide (length (words_on_board g) <= i)%nat); [lia|].
    repeat case_decide; eauto.
  - apply lookup_ge_None in Hk. lia.
Qed.

(** ** One step, case by case *)

Lemma words_on_board_asked t g : words_on_board (asked t g) = words_on_board g.
Proof. destruct t; reflexivity. Qed.

Lemma step_cases r r' : step r = Running r' -> StepCase r r'.
Proof.
  unfold step. destruct (pc r) as [|t clue n|] eqn:Hpc; [| |discriminate].
  - destruct (game_over (game_condition r)) eqn:Hg; intros [= <-].
    + apply case_finish; auto.
    + apply case_clue; auto.
  - unfold guess_turn.
    destruct (get_answer (guesser_of t (self r))) as [ans gs] eqn:Hget.
    assert (Hans : answer_of t (self r) = ans) by (unfold answer_of; rewrite Hget; reflexivity).
    assert (Hask : asked t (self r) = set_guesser t gs (self r))
      by (unfold asked; rewrite Hget; reflexivity).
    rewrite <- Hask.
    destruct ans as [answer|].
    + destruct (no_guess (Some answer)) eqn:Hno.
      * intros [= <-]. eapply case_no_guess; eauto. rewrite Hans. exact Hno.
      * rewrite words_on_board_asked.
        destruct (index _ _) as [i|] eqn:Hi; [|discriminate].
        destruct (_accept_guess _ _ _) as [[res g']|e] eqn:Hacc; [|discriminate].
        intros [= <-]. eapply case_guess; eauto.
        simpl in Hno. apply bool_decide_eq_false in Hno. exact Hno.
    + intros [= <-]. eapply case_no_guess; eauto. rewrite Hans. reflexivity.
Qed.

Section AfterGuess.
Variables (t : Team) (clue : string) (n : Z) (answer : string) (i : nat)
          (res : GameCondition) (g' : Game) (r : Run).

Lemma after_guess_board :
  words_on_board (self (after_guess t clue n answer i res g' r)) =
  words_on_board g'.
Proof. unfold after_guess. case_decide; destruct t; reflexivity. Qed.

Lemma after_guess_key :
  key_grid (self (after_guess t clue n answer i res g' r)) =
  key_grid g'.
Proof. unfold after_guess. case_decide; destruct t; reflexivity. Qed.

Lemma after_guess_single :
  single_team (self (after_guess t clue n answer i res g' r)) =
  single_team g'.
Proof. unfold after_guess. case_decide; destruct t; reflexivity. Qed.

Lemma after_guess_quota :
  num_red_words (self (after_guess t clue n answer i res g' r)) = num_red_words g' /\
  num_blue_words (self (after_guess t clue n answer i res g' r)) = num_blue_words g' /\
  num_civilian_words (self (after_guess t clue n answer i res g' r)) = num_civilian_words g' /\
  num_assassin_words (self (after_guess t clue n answer i res g' r)) = num_assassin_words g'.
Proof. unfold after_guess. case_decide; destruct t; auto. Qed.

Lemma after_guess_winner :
  game_winner (self (after_guess t clue n answer i res g' r)) =
  game_winner g'.
Proof. unfold after_guess. case_decide; destruct t; reflexivity. Qed.

Lemma after_guess_codemasters :
  codemaster_red (self (after_guess t clue n answer i res g' r)) = codemaster_red g' /\
  codemaster_blue (self (after_guess t clue n answer i res g' r)) = codemaster_blue g'.
Proof. unfold after_guess. case_decide; destruct t; auto. Qed.

Lemma after_guess_turn_counter :
  turn_counter (after_guess t clue n answer i res g' r) =
  turn_counter r.
Proof. unfold after_guess. case_decide; reflexivity. Qed.

(** The recorded guess: the raw answer, the label now on the cell, and
    the flag -- the guesser's decision if it was asked, [false] if not. *)
Lemma after_guess_history :
  move_history (self (after_guess t clue n answer i res g' r)) =
  (move_history g' ++
   [GuesserMove (team_name t +:+ "_Guesser") answer
      (default "" (words_on_board g' !! i))
      (if decide (game_condition r = res) then keep_of t g' else false)])%list.
Proof. unfold after_guess, keep_of. case_decide; destruct t; reflexivity. Qed.

Lemma after_guess_condition :
  game_condition (after_guess t clue n answer i res g' r) =
  single_team_rule (single_team g')
    (if decide (game_condition r = res)
     then pass_turn (keep_of t g') (game_condition r) else res).
Proof. unfold after_guess, keep_of. case_decide; destruct t; reflexivity. Qed.

Lemma after_guess_pc :
  pc (after_guess t clue n answer i res g' r) = if decide (game_condition r = res)
          then (if keep_of t g' then InnerLoop t clue n else OuterLoop)
          else OuterLoop.
Proof. unfold after_guess, keep_of. case_decide; destruct t; reflexivity. Qed.

(** [keep_guessing()] is called exactly when the verdict leaves the
    phase as it was. *)
Lemma after_guess_keeps :
  keeps_given (guesser_of t (self (after_guess t clue n answer i res g' r))) =
  if decide (game_condition r = res)
  then S (keeps_given (guesser_of t g')) else keeps_given (guesser_of t g').
Proof. unfold after_guess. case_decide; destruct t; reflexivity. Qed.

End AfterGuess.

(** ** Games as [__init__] builds them *)

Lemma setup_facts g : Setup g -> SetupFacts g.
Proof.
  intros [cmr gr cmb gb single temp key Hnd Hplain Hkey].
  split; simpl; try reflexivity; try assumption.
  - eapply sublist_NoDup; [exact Hnd | apply sublist_take].
  - apply Forall_take. exact Hplain.
  - rewrite (Permutation_length Hkey), length_take.
    change (length (unshuffled_key 9 8 7 1)) with 25%nat. lia.
Qed.

Lemma count_plain x (l : list string) :
  x ∈ markers -> Forall (λ w, w ∉ markers) l -> count x l = 0%nat.
Proof.
  intros Hx. induction 1 as [|y l Hy _ IH]; simpl; [reflexivity|].
  case_decide; [subst; contradiction|]. exact IH.
Qed.

Lemma revealed_cells_plain (l : list string) :
  Forall (λ w, w ∉ markers) l -> revealed_cells l = 0%nat.
Proof.
  unfold revealed_cells. induction 1 as [|y l Hy _ IH]; [reflexivity|].
  rewrite filter_cons. case_decide as E; [|exact IH].
  unfold is_marker in E. apply bool_decide_eq_true in E. contradiction.
Qed.

(** ** The head of a turn and the exit, field by field *)

Section ClueTurn.
Variable r : Run.

Lemma clue_turn_self_frame :
  words_on_board (self (clue_turn r)) = words_on_board (self r) /\
  key_grid (self (clue_turn r)) = key_grid (self r) /\
  single_team (self (clue_turn r)) = single_team (self r) /\
  num_red_words (self (clue_turn r)) = num_red_words (self r) /\
  num_blue_words (self (clue_turn r)) = num_blue_words (self r) /\
  num_civilian_words (self (clue_turn r)) = num_civilian_words (self r) /\
  num_assassin_words (self (clue_turn r)) = num_assassin_words (self r) /\
  guesser_red (self (clue_turn r)) = guesser_red (self r) /\
  guesser_blue (self (clue_turn r)) = guesser_blue (self r) /\
  game_winner (self (clue_turn r)) = game_winner (self r).
Proof.
  unfold clue_turn, get_clue. destruct (clue_script _ _) as [c k].
  case_decide; repeat split.
Qed.

Lemma clue_turn_history :
  move_history (self (clue_turn r)) =
  (move_history (self r) ++
   [CodemasterMove (team_name (acting_team (game_condition r)) +:+ "_Codemaster")
      (clue_of (acting_team (game_condition r)) (self r)).1
      (clue_of (acting_team (game_condition r)) (self r)).2])%list.
Proof.
  unfold clue_of, acting_team, clue_turn, get_clue.
  case_decide; simpl; destruct (clue_script _ _) as [c k]; reflexivity.
Qed.

Lemma clue_turn_locals :
  game_condition (clue_turn r) = game_condition r /\
  turn_counter (clue_turn r) = S (turn_counter r) /\
  pc (clue_turn r) =
    InnerLoop (acting_team (game_condition r))
      (clue_of (acting_team (game_condition r)) (self r)).1
      (clue_of (acting_team (game_condition r)) (self r)).2.
Proof.
  unfold clue_of, acting_team, clue_turn, get_clue.
  case_decide; simpl; destruct (clue_script _ _) as [c k]; repeat split.
Qed.

(** The clue-giver of the acting team, and no other role, is called. *)
Lemma clue_turn_calls :
  clues_given (codemaster_of (acting_team (game_condition r)) (self (clue_turn r))) =
    S (clues_given (codemaster_of (acting_team (game_condition r)) (self r))) /\
  forall t', t' <> acting_team (game_condition r) ->
    codemaster_of t' (self (clue_turn r)) = codemaster_of t' (self r).
Proof.
  unfold acting_team, clue_turn, get_clue.
  case_decide; simpl; destruct (clue_script _ _) as [c k]; simpl;
    (split; [reflexivity|]); intros [] Hne; first [reflexivity | congruence].
Qed.

End ClueTurn.

(** ** The invariant of the loop *)

Lemma asked_frame t g :
  words_on_board (asked t g) = words_on_board g /\
  key_grid (asked t g) = key_grid g /\
  single_team (asked t g) = single_team g /\
  num_red_words (asked t g) = num_red_words g /\
  num_blue_words (asked t g) = num_blue_words g /\
  num_civilian_words (asked t g) = num_civilian_words g /\
  num_assassin_words (asked t g) = num_assassin_words g /\
  move_history (asked t g) = move_history g /\
  codemaster_red (asked t g) = codemaster_red g /\
  codemaster_blue (asked t g) = codemaster_blue g /\
  game_winner (asked t g) = game_winner g.
Proof. destruct t; repeat split. Qed.

(** The guesser of team [t] has answered once more; its count of
    [keep_guessing] calls and the other guesser are as they were. *)
Lemma asked_calls t g :
  answers_given (guesser_of t (asked t g)) = S (answers_given (guesser_of t g)) /\
  keeps_given (guesser_of t (asked t g)) = keeps_given (guesser_of t g) /\
  forall t', t' <> t -> guesser_of t' (asked t g) = guesser_of t' g.
Proof.
  destruct t; (split; [reflexivity|]); (split; [reflexivity|]);
    intros [] Hne; first [reflexivity | congruence].
Qed.

(** An accepted guess: the cell found by [index] showed the word as read
    (so it was not revealed), and now shows the label of its key. *)
Lemma guess_effect r t answer i res g' :
  index (Str.strip (Str.upper answer)) (words_on_board (self r)) = Some i ->
  _accept_guess (asked t (self r)) i (game_condition r) = Ok (res, g') ->
  exists k,
    key_grid (self r) !! i = Some k /\
    words_on_board (self r) !! i = Some (Str.strip (Str.upper answer)) /\
    g' = set_words_on_board (asked t (self r))
           (<[i := marker_of k]> (words_on_board (self r))) /\
    ((k = "Red" /\
      res = if decide (num_red_words (self r) <=
                       count "*Red*" (<[i := "*Red*"]> (words_on_board (self r))))%nat
            then RED_WIN else RED_TURN) \/
     (k = "Blue" /\
      res = if decide (num_blue_words (self r) <=
                       count "*Blue*" (<[i := "*Blue*"]> (words_on_board (self r))))%nat
            then BLUE_WIN else BLUE_TURN) \/
     (k = "Assassin" /\
      res = if decide (game_condition r = RED_TURN) then BLUE_WIN else RED_WIN) \/
     (k <> "Red" /\ k <> "Blue" /\ k <> "Assassin" /\
      res = if decide (game_condition r = RED_TURN) then BLUE_TURN else RED_TURN)).
Proof.
  intros Hi Hacc. apply index_Some in Hi as [Hi _].
  apply accept_guess_Ok in Hacc as (k & Hk & _ & Hg' & Hres).
  destruct (asked_frame t (self r)) as (Eb & Ek & _ & Er & Ebl & _).
  rewrite Ek in Hk. rewrite Eb in Hg'. exists k.
  split; [exact Hk|]. split; [exact Hi|]. split; [exact Hg'|].
  rewrite Hg' in Hres. simpl in Hres. rewrite ?Er, ?Ebl in Hres.
  destruct Hres as [[-> ->]|[[-> ->]|[[-> ->]|(?&?&?&->)]]]; auto 10.
Qed.

Lemma entries_clue h who c k :
  clue_entries (h ++ [CodemasterMove who c k]) = S (clue_entries h) /\
  guess_entries (h ++ [CodemasterMove who c k]) = guess_entries h.
Proof.
  unfold clue_entries, guess_entries. rewrite !filter_app, !length_app. simpl.
  split; lia.
Qed.

Lemma entries_guess h who a w b :
  clue_entries (h ++ [GuesserMove who a w b]) = clue_entries h /\
  guess_entries (h ++ [GuesserMove who a w b]) = S (guess_entries h).
Proof.
  unfold clue_entries, guess_entries. rewrite !filter_app, !length_app. simpl.
  split; lia.
Qed.

Lemma single_team_rule_win single c :
  game_over c = true -> single_team_rule single c = c.
Proof. destruct single, c; reflexivity || discriminate. Qed.

Lemma single_team_rule_solo c : single_team_rule true c <> BLUE_TURN.
Proof. destruct c; discriminate. Qed.

Lemma single_team_rule_off c : single_team_rule false c = c.
Proof. reflexivity. Qed.

Lemma single_team_rule_keep single c :
  (single = true -> c <> BLUE_TURN) -> single_team_rule single c = c.
Proof. destruct single, c; try reflexivity. intros H. exfalso. apply H; reflexivity. Qed.

Lemma is_marker_true w : is_marker w = true <-> w ∈ markers.
Proof. unfold is_marker. apply bool_decide_eq_true. Qed.

Lemma is_marker_normalised answer : is_marker (Str.strip (Str.upper answer)) = false.
Proof.
  destruct (is_marker _) eqn:E; [|reflexivity].
  apply is_marker_true in E. destruct (normalised_not_marker _ E).
Qed.

Lemma is_marker_marker_of k : is_marker (marker_of k) = true.
Proof. apply is_marker_true, marker_of_is_marker. Qed.

Lemma game_over_turn t : game_over (turn_of t) = false.
Proof. destruct t; reflexivity. Qed.

Lemma acting_team_turn c : game_over c = false -> turn_of (acting_team c) = c.
Proof. destruct c; reflexivity || discriminate. Qed.

Lemma inv_start g : SetupFacts g -> Inv g (start g).
Proof.
  intros S. split; simpl; try reflexivity; auto.
  - rewrite count_plain; [rewrite (setup_red g S); lia | | apply (setup_plain g S)].
    unfold markers; rewrite !elem_of_cons; auto.
  - rewrite count_plain; [rewrite (setup_blue g S); lia | | apply (setup_plain g S)].
    unfold markers; rewrite !elem_of_cons; auto.
  - rewrite (setup_history g S). reflexivity.
  - rewrite (setup_history g S), revealed_cells_plain; [reflexivity|apply (setup_plain g S)].
Qed.

Lemma inv_finish g r : Inv g r -> game_over (game_condition r) = true -> Inv g (finish r).
Proof.
  intros I Hover. destruct I. split; simpl; auto.
Qed.

Lemma inv_clue_turn g r :
  Inv g r -> game_over (game_condition r) = false -> Inv g (clue_turn r).
Proof.
  intros I Hover.
  destruct (clue_turn_self_frame r) as (Eb & Ek & Es & Er & Ebl & Ec & Ea & _).
  destruct (clue_turn_locals r) as (Ecnd & Etc & Epc).
  pose proof (clue_turn_history r) as Eh.
  destruct I. split; rewrite ?Eb, ?Ek, ?Es, ?Er, ?Ebl, ?Ec, ?Ea, ?Ecnd, ?Etc, ?Epc, ?Eh; auto.
  - symmetry. apply acting_team_turn, Hover.
  - rewrite (proj1 (entries_clue _ _ _ _)). congruence.
  - rewrite (proj2 (entries_clue _ _ _ _)). congruence.
Qed.

Lemma inv_no_guess g r t :
  Inv g r -> Inv g (mkRun (asked t (self r)) (game_condition r) (turn_counter r) OuterLoop).
Proof.
  intros I.
  destruct (asked_frame t (self r)) as (Eb & Ek & Es & Er & Ebl & Ec & Ea & Eh & _).
  destruct I. split; simpl; rewrite ?Eb, ?Ek, ?Es, ?Er, ?Ebl, ?Ec, ?Ea, ?Eh; auto.
Qed.

Lemma marker_of_Red k : marker_of k = "*Red*" <-> k = "Red".
Proof. unfold marker_of. repeat case_decide; split; intros; congruence || discriminate. Qed.

Lemma marker_of_Blue k : marker_of k = "*Blue*" <-> k = "Blue".
Proof. unfold marker_of. repeat case_decide; split; intros; congruence || discriminate. Qed.

Lemma marker_of_Assassin k : marker_of k = "*Assassin*" <-> k = "Assassin".
Proof. unfold marker_of. repeat case_decide; split; intros; congruence || discriminate. Qed.

(** Revealing the cell an answer was found at adds one to the count of
    the label written, and leaves the other counts as they were. *)
Lemma count_reveal x (board : list string) i answer k :
  board !! i = Some (Str.strip (Str.upper answer)) ->
  x ∈ markers ->
  count x (<[i := marker_of k]> board) =
  (count x board + (if decide (marker_of k = x) then 1 else 0))%nat.
Proof.
  intros Hi Hx. pose proof (count_insert x board i _ (marker_of k) Hi) as H.
  case_decide as E; [|rewrite Nat.add_0_r in H; exact H].
  subst x. destruct (normalised_not_marker _ Hx).
Qed.

Lemma revealed_cells_reveal (board : list string) i answer k :
  board !! i = Some (Str.strip (Str.upper answer)) ->
  revealed_cells (<[i := marker_of k]> board) = S (revealed_cells board).
Proof.
  intros Hi. pose proof (revealed_cells_insert board i _ (marker_of k) Hi) as H.
  rewrite is_marker_normalised, is_marker_marker_of in H. lia.
Qed.

Lemma Red_marker : "*Red*" ∈ markers.
Proof. unfold markers; rewrite !elem_of_cons; auto. Qed.

Lemma Blue_marker : "*Blue*" ∈ markers.
Proof. unfold markers; rewrite !elem_of_cons; auto. Qed.

Lemma inv_after_guess g r t clue n answer i res g' :
  Inv g r -> pc r = InnerLoop t clue n ->
  index (Str.strip (Str.upper answer)) (words_on_board (self r)) = Some i ->
  _accept_guess (asked t (self r)) i (game_condition r) = Ok (res, g') ->
  Inv g (after_guess t clue n answer i res g' r).
Proof.
  intros I Hpc Hi Hacc.
  destruct (guess_effect r t answer i res g' Hi Hacc) as (k & Hk & Hw & Hg' & Hres).
  destruct (asked_frame t (self r)) as (Eb & Ek & Es & Er & Ebl & Ec & Ea & Eh & _).
  destruct (after_guess_quota t clue n answer i res g' r) as (Qr & Qb & Qc & Qa).
  pose proof (inv_pc g r I) as Hturn. rewrite Hpc in Hturn.
  assert (Hnr : ~ (num_red_words g <= count "*Red*" (words_on_board (self r)))%nat).
  { intros H%(inv_red_win g r I). rewrite H in Hturn. destruct t; discriminate. }
  assert (Hnb : ~ (num_blue_words g <= count "*Blue*" (words_on_board (self r)))%nat).
  { intros H%(inv_blue_win g r I). rewrite H in Hturn. destruct t; discriminate. }
  assert (Hsolo : single_team g' = single_team g).
  { rewrite Hg'. simpl. rewrite ?Es. apply (inv_single g r I). }
  split;
    rewrite ?after_guess_board, ?after_guess_key, ?after_guess_single, ?Qr, ?Qb, ?Qc, ?Qa,
            ?after_guess_turn_counter, ?after_guess_history, ?after_guess_condition,
            ?after_guess_pc.
  - exact Hsolo.
  - rewrite Hg'. simpl. rewrite ?Er. apply (inv_red g r I).
  - rewrite Hg'. simpl. rewrite ?Ebl. apply (inv_blue g r I).
  - rewrite Hg'. simpl. rewrite ?Ec. apply (inv_civilian g r I).
  - rewrite Hg'. simpl. rewrite ?Ea. apply (inv_assassin g r I).
  - rewrite Hg'. simpl. rewrite ?Ek. apply (inv_key g r I).
  - rewrite Hg'. simpl. rewrite length_insert. apply (inv_length g r I).
  - rewrite Hg'. simpl. intros j w Hj.
    destruct (decide (i = j)) as [<-|Hne].
    + rewrite list_lookup_insert_eq in Hj by (eapply lookup_lt_Some; eauto).
      injection Hj as <-. right. exists k. split; [|reflexivity].
      rewrite <- (inv_key g r I). exact Hk.
    + rewrite list_lookup_insert_ne in Hj by exact Hne. apply (inv_cells g r I _ _ Hj).
  - destruct (decide (game_condition r = res)) as [E|E]; [|exact Logic.I].
    destruct (keep_of t g'); [|exact Logic.I].
    unfold pass_turn. simpl. rewrite single_team_rule_keep; [exact Hturn|].
    rewrite Hsolo. apply (inv_solo g r I).
  - rewrite Hsolo. intros ->. apply single_team_rule_solo.
  - rewrite Hg'. simpl. rewrite (count_reveal _ _ _ _ _ Hw Red_marker).
    intros Hcount.
    destruct (decide (marker_of k = "*Red*")) as [Em|Em]; [|lia].
    apply marker_of_Red in Em. subst k.
    assert (Hfull : (num_red_words (self r) <=
                     count "*Red*" (<[i := "*Red*"]> (words_on_board (self r))))%nat).
    { rewrite (inv_red g r I).
      pose proof (count_reveal "*Red*" _ i answer "Red" Hw Red_marker) as Hc.
      change (marker_of "Red") with "*Red*" in Hc.
      rewrite decide_True in Hc by reflexivity. rewrite Hc. exact Hcount. }
    assert (res = RED_WIN) as ->.
    { destruct Hres as [[_ ->]|[[? _]|[[? _]|[? _]]]]; try discriminate; try congruence.
      apply decide_True, Hfull. }
    rewrite decide_False by (rewrite Hturn; destruct t; discriminate).
    apply single_team_rule_win. reflexivity.
  - rewrite Hg'. simpl. rewrite (count_reveal _ _ _ _ _ Hw Blue_marker).
    intros Hcount.
    destruct (decide (marker_of k = "*Blue*")) as [Em|Em]; [|lia].
    apply marker_of_Blue in Em. subst k.
    assert (Hfull : (num_blue_words (self r) <=
                     count "*Blue*" (<[i := "*Blue*"]> (words_on_board (self r))))%nat).
    { rewrite (inv_blue g r I).
      pose proof (count_reveal "*Blue*" _ i answer "Blue" Hw Blue_marker) as Hc.
      change (marker_of "Blue") with "*Blue*" in Hc.
      rewrite decide_True in Hc by reflexivity. rewrite Hc. exact Hcount. }
    assert (res = BLUE_WIN) as ->.
    { destruct Hres as [[? _]|[[_ ->]|[[? _]|[_ [? _]]]]]; try discriminate; try congruence.
      apply decide_True, Hfull. }
    rewrite decide_False by (rewrite Hturn; destruct t; discriminate).
    apply single_team_rule_win. reflexivity.
  - rewrite (proj1 (entries_guess _ _ _ _ _)). rewrite Hg'. simpl. rewrite ?Eh.
    apply (inv_clues g r I).
  - rewrite (proj2 (entries_guess _ _ _ _ _)). rewrite Hg'. simpl. rewrite ?Eh.
    rewrite (revealed_cells_reveal _ _ _ _ Hw). f_equal. apply (inv_guesses g r I).
Qed.

Lemma inv_step g r r' : Inv g r -> step r = Running r' -> Inv g r'.
Proof.
  intros I Hstep. destruct (step_cases r r' Hstep) as
    [_ Hover ->|_ Hover ->|t clue n _ _ ->|t clue n answer i res g' Hpc _ _ Hi Hacc ->].
  - apply inv_finish; assumption.
  - apply inv_clue_turn; assumption.
  - apply inv_no_guess; assumption.
  - eapply inv_after_guess; eassumption.
Qed.

Lemma reachable_inv g r : Setup g -> Reachable g r -> Inv g r.
Proof.
  intros S%setup_facts. induction 1 as [|r r' _ IH Hstep].
  - apply inv_start, S.
  - eapply inv_step; eassumption.
Qed.

Lemma steps_reachable g n r r' :
  Reachable g r -> steps n r = Running r' -> Reachable g r'.
Proof.
  revert r. induction n as [|n IH]; simpl; intros r Hr.
  - intros [= <-]. exact Hr.
  - destruct (step r) as [r1| |] eqn:Hstep; try discriminate.
    apply IH. eapply reach_step; eassumption.
Qed.

(** ** One pass of the guessing loop, forwards *)

Section GuessTurn.
Variables (r : Run) (t : Team) (clue : string) (n : Z).
Hypothesis Hpc : pc r = InnerLoop t clue n.

Lemma step_no_guess :
  no_guess (answer_of t (self r)) = true ->
  step r = Running (mkRun (asked t (self r)) (game_condition r) (turn_counter r) OuterLoop).
Proof.
  unfold step, guess_turn, answer_of, asked. rewrite Hpc.
  destruct (get_answer (guesser_of t (self r))) as [[answer|] gs]; simpl; [|reflexivity].
  intros ->. reflexivity.
Qed.


Lemma step_guess answer i res g' :
  answer_of t (self r) = Some answer -> answer <> "no comparisons" ->
  index (Str.strip (Str.upper answer)) (words_on_board (self r)) = Some i ->
  _accept_guess (asked t (self r)) i (game_condition r) = Ok (res, g') ->
  step r = Running (after_guess t clue n answer i res g' r).
Proof.
  unfold step, guess_turn, answer_of. rewrite Hpc. intros Hans Hne Hidx Hacc.
  unfold asked in *.
  destruct (get_answer (guesser_of t (self r))) as [ans gs]. simpl in *. subst ans.
  unfold no_guess. rewrite bool_decide_eq_false_2 by exact Hne.
  rewrite Hidx, Hacc. reflexivity.
Qed.

End GuessTurn.

(** ** After a win *)

Lemma steps_from_win r m r' :
  game_over (game_condition r) = true -> pc r <> Finished ->
  (forall t clue n, pc r <> InnerLoop t clue n) ->
  steps m r = Running r' -> r' = r \/ r' = finish r.
Proof.
  intros Hover Hnf Hni. destruct m as [|m]; simpl; [intros [= <-]; auto|].
  unfold step. destruct (pc r) as [|t clue n|] eqn:Hpc; [|destruct (Hni t clue n eq_refl)|congruence].
  rewrite Hover. destruct m as [|m]; simpl; [intros [= <-]; auto|discriminate].
Qed.

Lemma steps_from_finished r m r' :
  pc r = Finished -> steps m r = Running r' -> r' = r.
Proof.
  intros Hpc. destruct m as [|m]; simpl; [intros [= <-]; reflexivity|].
  unfold step. rewrite Hpc. discriminate.
Qed.

Lemma state_after_reachable g m :
  (if steps m (start g) is Running _ then True else False) ->
  Reachable g (state_after m g).
Proof.
  unfold state_after. destruct (steps m (start g)) as [r| |] eqn:E; try tauto.
  intros _. eapply steps_reachable; [apply reach_start|exact E].
Qed.

Lemma sample_setup single clues_r clues_b answers_r keeps_r answers_b keeps_b :
  Setup (Sample.game single clues_r clues_b answers_r keeps_r answers_b keeps_b).
Proof.
  apply setup_init.
  - unfold Sample.pool. compute_done.
  - unfold Sample.pool. compute_done.
  - reflexivity.
Qed.

(** ** [_accept_guess], forwards *)

Section AcceptGuess.
Variables (g : Game) (i : nat) (c : GameCondition).
Hypothesis Hi : (i < length (words_on_board g))%nat.

Lemma accept_guess_assassin :
  key_grid g !! i = Some "Assassin" ->
  _accept_guess g i c =
  Ok (if decide (c = RED_TURN) then BLUE_WIN else RED_WIN,
      set_words_on_board g (<[i := "*Assassin*"]> (words_on_board g))).
Proof.
  intros Hk. unfold _accept_guess. rewrite Hk.
  rewrite decide_False by lia. simpl. case_decide; reflexivity.
Qed.

Lemma accept_guess_civilian k :
  key_grid g !! i = Some k -> k <> "Red" -> k <> "Blue" -> k <> "Assassin" ->
  _accept_guess g i c =
  Ok (if decide (c = RED_TURN) then BLUE_TURN else RED_TURN,
      set_words_on_board g (<[i := "*Civilian*"]> (words_on_board g))).
Proof.
  intros Hk Hr Hb Ha. unfold _accept_guess. rewrite Hk.
  rewrite decide_False by lia. rewrite !decide_False by assumption.
  case_decide; reflexivity.
Qed.

Lemma accept_guess_red :
  key_grid g !! i = Some "Red" ->
  _accept_guess g i c =
  Ok (if decide (num_red_words g <=
                 count "*Red*" (<[i := "*Red*"]> (words_on_board g)))%nat
      then RED_WIN else RED_TURN,
      set_words_on_board g (<[i := "*Red*"]> (words_on_board g))).
Proof.
  intros Hk. unfold _accept_guess. rewrite Hk.
  rewrite decide_False by lia. simpl. case_decide; reflexivity.
Qed.

Lemma accept_guess_blue :
  key_grid g !! i = Some "Blue" ->
  _accept_guess g i c =
  Ok (if decide (num_blue_words g <=
                 count "*Blue*" (<[i := "*Blue*"]> (words_on_board g)))%nat
      then BLUE_WIN else BLUE_TURN,
      set_words_on_board g (<[i := "*Blue*"]> (words_on_board g))).
Proof.
  intros Hk. unfold _accept_guess. rewrite Hk.
  rewrite decide_False by lia. simpl. case_decide; reflexivity.
Qed.

End AcceptGuess.

Lemma index_lt x l i : index x l = Some i -> (i < length l)%nat.
Proof. intros [H _]%index_Some. eapply lookup_lt_Some, H. Qed.

(** Once the phase is a win at the head of the loop, [run] returns at the
    next step, and nothing it leaves behind differs but [game_winner]. *)
Lemma after_win r m r' :
  game_over (game_condition r) = true -> pc r = OuterLoop ->
  steps m r = Running r' ->
  game_condition r' = game_condition r /\
  words_on_board (self r') = words_on_board (self r) /\
  move_history (self r') = move_history (self r) /\
  key_grid (self r') = key_grid (self r) /\
  guesser_red (self r') = guesser_red (self r) /\
  guesser_blue (self r') = guesser_blue (self r) /\
  codemaster_red (self r') = codemaster_red (self r) /\
  codemaster_blue (self r') = codemaster_blue (self r) /\
  turn_counter r' = turn_counter r.
Proof.
  intros Hover Hpc Hsteps.
  destruct (steps_from_win r m r' Hover) as [->| ->]; auto 10; congruence.
Qed.

Lemma win_returns r :
  game_over (game_condition r) = true -> pc r = OuterLoop ->
  steps 1 r = Running (finish r) /\ steps 2 r = Stopped.
Proof.
  intros Hover Hpc. simpl. unfold step. rewrite Hpc, Hover. simpl. auto.
Qed.

(** * The claims *)

(** C1.  In a reachable state, a guess that lands on the Assassin's cell
    reveals the cell and makes the phase the win of the team that did not
    guess -- [BLUE_WIN] on red's turn, [RED_WIN] on blue's -- and no
    further guess is made: the guessers are not called again, the board
    stays as it is, and [run] returns within two steps. *)
Theorem C1_assassin_ends_the_game g r t clue n answer i :
  Setup g -> Reachable g r ->
  pc r = InnerLoop t clue n ->
  answer_of t (self r) = Some answer -> answer <> "no comparisons" ->
  index (Str.strip (Str.upper answer)) (words_on_board (self r)) = Some i ->
  key_grid (self r) !! i = Some "Assassin" ->
  exists r',
    step r = Running r' /\
    words_on_board (self r') = <[i := "*Assassin*"]> (words_on_board (self r)) /\
    game_condition r' = win_of (other t) /\
    (game_condition r = RED_TURN -> game_condition r' = BLUE_WIN) /\
    (game_condition r = BLUE_TURN -> game_condition r' = RED_WIN) /\
    (forall m r'', steps m r' = Running r'' ->
       game_condition r'' = game_condition r' /\
       words_on_board (self r'') = words_on_board (self r') /\
       guesser_red (self r'') = guesser_red (self r') /\
       guesser_blue (self r'') = guesser_blue (self r')) /\
    steps 2 r' = Stopped.
Proof.
  intros HS HR Hpc Hans Hne Hidx Hkey.
  pose proof (reachable_inv g r HS HR) as Hinv.
  pose proof (inv_pc g r Hinv) as Hturn. rewrite Hpc in Hturn.
  pose proof (index_lt _ _ _ Hidx) as Hlt.
  assert (Hacc : _accept_guess (asked t (self r)) i (game_condition r) =
                 Ok (win_of (other t),
                     set_words_on_board (asked t (self r))
                       (<[i := "*Assassin*"]> (words_on_board (self r))))).
  { rewrite <- (words_on_board_asked t (self r)) in Hlt.
    rewrite (accept_guess_assassin _ _ (game_condition r) Hlt).
    - rewrite words_on_board_asked, Hturn. destruct t; reflexivity.
    - destruct t; exact Hkey. }
  pose proof (step_guess r t clue n Hpc answer i _ _ Hans Hne Hidx Hacc) as Hstep.
  set (r' := after_guess _ _ _ _ _ _ _ _) in Hstep.
  assert (Hc : game_condition r' = win_of (other t)).
  { unfold r'. rewrite after_guess_condition.
    rewrite decide_False by (rewrite Hturn; destruct t; discriminate).
    apply single_team_rule_win. destruct t; reflexivity. }
  assert (Hover : game_over (game_condition r') = true)
    by (rewrite Hc; destruct t; reflexivity).
  assert (Hpc' : pc r' = OuterLoop).
  { unfold r'. rewrite after_guess_pc.
    rewrite decide_False by (rewrite Hturn; destruct t; discriminate). reflexivity. }
  exists r'. split; [exact Hstep|]. split; [apply after_guess_board|].
  split; [exact Hc|].
  split; [intros E; rewrite E in Hturn; rewrite Hc; destruct t; [reflexivity|discriminate]|].
  split; [intros E; rewrite E in Hturn; rewrite Hc; destruct t; [discriminate|reflexivity]|].
  split.
  - intros m r'' Hsteps.
    destruct (after_win r' m r'' Hover Hpc' Hsteps) as (? & ? & _ & _ & ? & ? & _). auto.
  - apply win_returns; assumption.
Qed.

(** Red is given a clue and guesses ZOO, the Assassin's cell. *)
Lemma C1_assassin_ends_the_game_witness :
  let g := Sample.game false [("sea", 1%Z)] [] [Some "zoo"] [] [] [] in
  exists r', step (state_after 1 g) = Running r' /\ game_condition r' = BLUE_WIN.
Proof.
  intros g.
  destruct (C1_assassin_ends_the_game g (state_after 1 g) Red "sea" 1%Z "zoo" 24)
    as (r' & Hstep & _ & Hc & _).
  - apply sample_setup.
  - apply state_after_reachable. vm_compute. exact Logic.I.
  - reflexivity.
  - reflexivity.
  - discriminate.
  - vm_compute. reflexivity.
  - reflexivity.
  - exists r'. split; [exact Hstep | exact Hc].
Defined.

(** ** The board against the key *)

(** A label is counted at most as often as the key has cells for it. *)
Lemma count_le_key m (board board0 key : list string) :
  m ∈ markers ->
  Forall (λ w, w ∉ markers) board0 ->
  (forall i w, board !! i = Some w ->
     board0 !! i = Some w \/ exists k, key !! i = Some k /\ w = marker_of k) ->
  (count m board <= count m (marker_of <$> key))%nat.
Proof.
  intros Hm. revert board0 key.
  induction board as [|w b IH]; intros board0 key Hplain H; simpl; [lia|].
  assert (Htail : (count m b <= count m (marker_of <$> tail key))%nat).
  { apply (IH (tail board0)).
    - destruct board0; [constructor|]. simpl. eapply Forall_inv_tail, Hplain.
    - intros i v Hi. rewrite !lookup_tail. apply (H (S i) v Hi). }
  destruct (H 0%nat w eq_refl) as [H0|(k & Hk & ->)].
  - destruct board0 as [|w0 b0]; [discriminate|]. injection H0 as ->.
    apply Forall_inv in Hplain.
    rewrite decide_False by (intros ->; contradiction).
    destruct key; csimpl in *; repeat case_decide; lia.
  - destruct key as [|k0 key]; [discriminate|]. injection Hk as ->.
    csimpl in *. repeat case_decide; lia.
Qed.

Lemma key_quota key :
  key ≡ₚ unshuffled_key 9 8 7 1 ->
  count "*Red*" (marker_of <$> key) = 9%nat /\
  count "*Blue*" (marker_of <$> key) = 8%nat /\
  count "*Civilian*" (marker_of <$> key) = 7%nat /\
  count "*Assassin*" (marker_of <$> key) = 1%nat.
Proof.
  intros Hkey.
  pose proof (fmap_Permutation marker_of _ _ Hkey) as Hp.
  rewrite !(count_Permutation _ _ _ Hp). repeat split.
Qed.

Lemma Civilian_marker : "*Civilian*" ∈ markers.
Proof. unfold markers; rewrite !elem_of_cons; auto. Qed.

Lemma Assassin_marker : "*Assassin*" ∈ markers.
Proof. unfold markers; rewrite !elem_of_cons; auto. Qed.

Lemma reachable_within_quota g r :
  Setup g -> Reachable g r ->
  (count "*Red*" (words_on_board (self r)) <= 9)%nat /\
  (count "*Blue*" (words_on_board (self r)) <= 8)%nat /\
  (count "*Civilian*" (words_on_board (self r)) <= 7)%nat /\
  (count "*Assassin*" (words_on_board (self r)) <= 1)%nat.
Proof.
  intros HS HR. pose proof (reachable_inv g r HS HR) as Hinv.
  pose proof (setup_facts g HS) as F.
  destruct (key_quota _ (setup_key g F)) as (Qr & Qb & Qc & Qa).
  rewrite <- Qr at 1. rewrite <- Qb at 1. rewrite <- Qc at 1. rewrite <- Qa at 1.
  pose proof (setup_plain g F) as Hplain. pose proof (inv_cells g r Hinv) as Hcells.
  repeat split;
    apply (count_le_key _ _ (words_on_board g));
    auto using Red_marker, Blue_marker, Civilian_marker, Assassin_marker.
Qed.

(** Only an accepted guess changes the board, and it changes one cell. *)
Lemma step_board r r' :
  step r = Running r' ->
  words_on_board (self r') = words_on_board (self r) \/
  exists t clue n answer i k res g',
    pc r = InnerLoop t clue n /\
    words_on_board (self r) !! i = Some (Str.strip (Str.upper answer)) /\
    key_grid (self r) !! i = Some k /\
    words_on_board (self r') = <[i := marker_of k]> (words_on_board (self r)) /\
    _accept_guess (asked t (self r)) i (game_condition r) = Ok (res, g') /\
    r' = after_guess t clue n answer i res g' r.
Proof.
  intros Hstep. destruct (step_cases r r' Hstep) as
    [_ _ ->|_ _ ->|t clue n _ _ ->|t clue n answer i res g' Hpc _ _ Hi Hacc ->].
  - left. reflexivity.
  - left. apply clue_turn_self_frame.
  - left. apply words_on_board_asked.
  - right. destruct (guess_effect r t answer i res g' Hi Hacc) as (k & Hk & Hw & Hg' & _).
    exists t, clue, n, answer, i, k, res, g'. repeat (split; [assumption|]).
    split; [|split; [assumption|reflexivity]].
    rewrite after_guess_board, Hg'. reflexivity.
Qed.

(** A verdict that is a turn never leaves the phase at a win. *)
Lemma turn_verdict_not_win single keep t res :
  game_over res = false ->
  game_over (single_team_rule single
               (if decide (turn_of t = res) then pass_turn keep (turn_of t) else res)) = false.
Proof. destruct single, keep, t, res; intros; reflexivity || discriminate. Qed.

(** A win has one of two causes: the team's count is at its quota, or the
    Assassin's cell has been revealed. *)
Lemma win_cause g r :
  Setup g -> Reachable g r ->
  (game_condition r = RED_WIN ->
   (num_red_words g <= count "*Red*" (words_on_board (self r)))%nat \/
   (1 <= count "*Assassin*" (words_on_board (self r)))%nat) /\
  (game_condition r = BLUE_WIN ->
   (num_blue_words g <= count "*Blue*" (words_on_board (self r)))%nat \/
   (1 <= count "*Assassin*" (words_on_board (self r)))%nat).
Proof.
  intros HS. induction 1 as [|r r' HR IH Hstep]; [split; discriminate|].
  pose proof (reachable_inv g r HS HR) as Hinv.
  destruct (step_cases r r' Hstep) as
    [_ _ ->|_ _ ->|t clue n _ _ ->|t clue n answer i res g' Hpc _ _ Hi Hacc ->].
  - exact IH.
  - destruct (clue_turn_self_frame r) as (-> & _).
    destruct (clue_turn_locals r) as (-> & _). exact IH.
  - simpl. rewrite ?words_on_board_asked. exact IH.
  - pose proof (inv_pc g r Hinv) as Hturn. rewrite Hpc in Hturn.
    destruct (guess_effect r t answer i res g' Hi Hacc) as (k & Hk & Hw & Hg' & Hres).
    assert (Hc : game_condition (after_guess t clue n answer i res g' r) =
                 single_team_rule (single_team g')
                   (if decide (turn_of t = res)
                    then pass_turn (keep_of t g') (turn_of t) else res))
      by (rewrite after_guess_condition, Hturn; reflexivity).
    assert (Hturns : game_over res = false ->
                     game_over (game_condition (after_guess t clue n answer i res g' r)) = false)
      by (intros Hr; rewrite Hc; apply turn_verdict_not_win, Hr).
    assert (Hb : words_on_board g' = <[i := marker_of k]> (words_on_board (self r)))
      by (rewrite Hg'; reflexivity).
    rewrite after_guess_board, Hb.
    rewrite <- (inv_red g r Hinv), <- (inv_blue g r Hinv).
    destruct Hres as [[-> Hres]|[[-> Hres]|[[-> Hres]|(_ & _ & _ & Hres)]]].
    + change (marker_of "Red") with "*Red*".
      destruct (decide (_ <= _)%nat) as [Hfull|_].
      * split; [auto|]. subst res. rewrite Hc.
        rewrite decide_False by (destruct t; discriminate).
        rewrite single_team_rule_win by reflexivity. discriminate.
      * subst res. specialize (Hturns eq_refl).
        split; intros E; rewrite E in Hturns; discriminate.
    + change (marker_of "Blue") with "*Blue*".
      destruct (decide (_ <= _)%nat) as [Hfull|_].
      * split; [|auto]. subst res. rewrite Hc.
        rewrite decide_False by (destruct t; discriminate).
        rewrite single_team_rule_win by reflexivity. discriminate.
      * subst res. specialize (Hturns eq_refl).
        split; intros E; rewrite E in Hturns; discriminate.
    + pose proof (count_reveal "*Assassin*" _ i answer "Assassin" Hw Assassin_marker) as Hcnt.
      change (marker_of "Assassin") with "*Assassin*" in *.
      rewrite decide_True in Hcnt by reflexivity.
      split; intros _; right; lia.
    + assert (Hr : game_over res = false) by (subst res; case_decide; reflexivity).
      specialize (Hturns Hr).
      split; intros E; rewrite E in Hturns; discriminate.
Qed.

(** C2, as it stands, fails: reaching the quota is not the only way to a
    team's win.  Red guesses ROCK (a Civilian), then blue guesses ZOO, the
    Assassin's cell: the phase is [RED_WIN] with no red cell revealed. *)
Lemma C2_quota_counterexample :
  let g := Sample.game false [("stone", 1%Z)] [("sea", 1%Z)]
             [Some "rock"] [] [Some "zoo"] [] in
  let r := state_after 4 g in
  Setup g /\ Reachable g r /\
  game_condition r = RED_WIN /\
  count "*Red*" (words_on_board (self r)) = 0%nat /\
  ~ (game_condition r = RED_WIN <->
     count "*Red*" (words_on_board (self r)) = num_red_words (self r)).
Proof.
  intros g r. split; [apply sample_setup|].
  split; [apply state_after_reachable; vm_compute; exact Logic.I|].
  split; [vm_compute; reflexivity|]. split; [vm_compute; reflexivity|].
  intros [H _]. specialize (H ltac:(vm_compute; reflexivity)).
  vm_compute in H. discriminate.
Qed.

(** C2, amended.  In a reachable state the revealed cells of each category
    are within the quota set by [__init__] (9 red, 8 blue, 7 civilian, 1
    assassin).  A team's count at its quota means the phase is that team's
    win; a team's win means its count is at the quota or the Assassin's
    cell is revealed; and when a step reveals a cell of a team's own
    category the new phase is that team's win exactly when the count has
    reached the quota. *)
Theorem C2_revealed_within_quota g r :
  Setup g -> Reachable g r ->
  let board := words_on_board (self r) in
  (num_red_words (self r) = 9 /\ num_blue_words (self r) = 8 /\
   num_civilian_words (self r) = 7 /\ num_assassin_words (self r) = 1)%nat /\
  (count "*Red*" board <= num_red_words (self r) /\
   count "*Blue*" board <= num_blue_words (self r) /\
   count "*Civilian*" board <= num_civilian_words (self r) /\
   count "*Assassin*" board <= num_assassin_words (self r))%nat /\
  (count "*Red*" board = num_red_words (self r) -> game_condition r = RED_WIN) /\
  (count "*Blue*" board = num_blue_words (self r) -> game_condition r = BLUE_WIN) /\
  (game_condition r = RED_WIN ->
   count "*Red*" board = num_red_words (self r) \/ count "*Assassin*" board = 1%nat) /\
  (game_condition r = BLUE_WIN ->
   count "*Blue*" board = num_blue_words (self r) \/ count "*Assassin*" board = 1%nat) /\
  (forall r', step r = Running r' ->
     (count "*Red*" (words_on_board (self r')) <> count "*Red*" board ->
      (game_condition r' = RED_WIN <->
       count "*Red*" (words_on_board (self r')) = num_red_words (self r'))) /\
     (count "*Blue*" (words_on_board (self r')) <> count "*Blue*" board ->
      (game_condition r' = BLUE_WIN <->
       count "*Blue*" (words_on_board (self r')) = num_blue_words (self r')))).
Proof.
  intros HS HR board.
  pose proof (reachable_inv g r HS HR) as Hinv.
  pose proof (setup_facts g HS) as F.
  destruct (reachable_within_quota g r HS HR) as (Br & Bb & Bc & Ba).
  destruct (win_cause g r HS HR) as [Wr Wb].
  assert (Qr : num_red_words (self r) = 9%nat)
    by (rewrite (inv_red g r Hinv); apply (setup_red g F)).
  assert (Qb : num_blue_words (self r) = 8%nat)
    by (rewrite (inv_blue g r Hinv); apply (setup_blue g F)).
  assert (Qc : num_civilian_words (self r) = 7%nat)
    by (rewrite (inv_civilian g r Hinv); apply (setup_civilian g F)).
  assert (Qa : num_assassin_words (self r) = 1%nat)
    by (rewrite (inv_assassin g r Hinv); apply (setup_assassin g F)).
  split; [auto|]. split; [unfold board; rewrite Qr, Qb, Qc, Qa; auto|].
  split; [intros E; apply (inv_red_win g r Hinv); rewrite <- (inv_red g r Hinv); unfold board in E; lia|].
  split; [intros E; apply (inv_blue_win g r Hinv); rewrite <- (inv_blue g r Hinv); unfold board in E; lia|].
  split; [intros E; rewrite <- (inv_red g r Hinv) in Wr; unfold board;
          destruct (Wr E); [left|right]; lia|].
  split; [intros E; rewrite <- (inv_blue g r Hinv) in Wb; unfold board;
          destruct (Wb E); [left|right]; lia|].
  intros r' Hstep.
  assert (HR' : Reachable g r') by (eapply reach_step; eassumption).
  pose proof (reachable_inv g r' HS HR') as Hinv'.
  destruct (reachable_within_quota g r' HS HR') as (Br' & Bb' & _).
  assert (Qr' : num_red_words (self r') = 9%nat)
    by (rewrite (inv_red g r' Hinv'); apply (setup_red g F)).
  assert (Qb' : num_blue_words (self r') = 8%nat)
    by (rewrite (inv_blue g r' Hinv'); apply (setup_blue g F)).
  destruct (step_board r r' Hstep) as
    [E|(t & clue & n & answer & i & k & res & g' & Hpc & Hw & Hk & Hb & Hacc & Hr')].
  { unfold board. rewrite E. split; intros H; destruct (H eq_refl). }
  pose proof (inv_pc g r Hinv) as Hturn. rewrite Hpc in Hturn.
  pose proof (lookup_lt_Some _ _ _ Hw) as Hlt.
  rewrite <- (words_on_board_asked t (self r)) in Hlt.
  assert (Hc : game_condition r' =
               single_team_rule (single_team g')
                 (if decide (turn_of t = res) then pass_turn (keep_of t g') (turn_of t)
                  else res)).
  { rewrite Hr', after_guess_condition, Hturn. reflexivity. }
  unfold board. split; intros Hchange.
  - split.
    + intros Hwin.
      rewrite Hb, (count_reveal _ _ _ _ _ Hw Red_marker) in Hchange.
      destruct (decide (marker_of k = "*Red*")) as [Ek|Ek]; [|lia].
      apply marker_of_Red in Ek. subst k.
      rewrite accept_guess_red in Hacc by (assumption || (destruct t; exact Hk)).
      injection Hacc as <- _.
      destruct (decide (_ <= _)%nat) as [Hfull|Hnot].
      * rewrite Hb in Br' |- *. change (marker_of "Red") with "*Red*" in *.
        destruct t; simpl in Hfull; lia.
      * exfalso. pose proof (turn_verdict_not_win (single_team g') (keep_of t g') t RED_TURN eq_refl) as Hnw.
        rewrite <- Hc, Hwin in Hnw. discriminate.
    + intros E. apply (inv_red_win g r' Hinv').
      rewrite <- (inv_red g r' Hinv'). lia.
  - split.
    + intros Hwin.
      rewrite Hb, (count_reveal _ _ _ _ _ Hw Blue_marker) in Hchange.
      destruct (decide (marker_of k = "*Blue*")) as [Ek|Ek]; [|lia].
      apply marker_of_Blue in Ek. subst k.
      rewrite accept_guess_blue in Hacc by (assumption || (destruct t; exact Hk)).
      injection Hacc as <- _.
      destruct (decide (_ <= _)%nat) as [Hfull|Hnot].
      * rewrite Hb in Bb' |- *. change (marker_of "Blue") with "*Blue*" in *.
        destruct t; simpl in Hfull; lia.
      * exfalso. pose proof (turn_verdict_not_win (single_team g') (keep_of t g') t BLUE_TURN eq_refl) as Hnw.
        rewrite <- Hc, Hwin in Hnw. discriminate.
    + intros E. apply (inv_blue_win g r' Hinv').
      rewrite <- (inv_blue g r' Hinv'). lia.
Qed.

(** Red has guessed APPLE, one of its own words. *)
Lemma C2_revealed_within_quota_witness :
  let g := Sample.game false [("fruit", 1%Z)] [] [Some "apple"] [false] [] [] in
  let r := state_after 2 g in
  (count "*Red*" (words_on_board (self r)) <= num_red_words (self r))%nat.
Proof.
  intros g r.
  destruct (C2_revealed_within_quota g r) as (_ & (H & _) & _).
  - apply sample_setup.
  - apply state_after_reachable. vm_compute. exact Logic.I.
  - exact H.
Defined.

(** C3, as it stands, fails in single-team mode.  Red guesses its own
    word APPLE (cell 0), the quota is not complete, [keep_guessing()]
    returns false: line 353 sets the phase to [BLUE_TURN] and line 363
    sets it back, so the pass ends on [RED_TURN], not on the other team's
    turn. *)
Lemma C3_flip_counterexample :
  let g := Sample.game true [("fruit", 1%Z)] [] [Some "apple"] [false] [] [] in
  let r := state_after 1 g in
  Reachable g r /\
  pc r = InnerLoop Red "fruit" 1%Z /\
  answer_of Red (self r) = Some "apple" /\
  index (Str.strip (Str.upper "apple")) (words_on_board (self r)) = Some 0%nat /\
  key_grid (self r) !! 0%nat = Some (team_name Red) /\
  (count (own_marker Red) (<[0%nat := own_marker Red]> (words_on_board (self r)))
   < quota Red (self r))%nat /\
  exists g' r',
    _accept_guess (asked Red (self r)) 0 (game_condition r) = Ok (game_condition r, g') /\
    keep_of Red g' = false /\
    step r = Running r' /\
    game_condition r' <> turn_of (other Red).
Proof.
  intros g r.
  split; [apply state_after_reachable; vm_compute; exact Logic.I|].
  split; [reflexivity|]. split; [reflexivity|].
  split; [vm_compute; reflexivity|]. split; [reflexivity|].
  split; [vm_compute; lia|].
  eexists _, _. split; [vm_compute; reflexivity|].
  split; [reflexivity|]. split; [vm_compute; reflexivity|].
  vm_compute. discriminate.
Qed.

(** C3, amended.  A guess of the acting team on a cell of its own
    category that does not complete the quota leaves the phase as it is:
    [_accept_guess] returns the current phase.  [run] then calls
    [keep_guessing()]; on true the guesser guesses again in the same
    phase, on false lines 351-355 flip the phase to the other team's turn,
    which stands in a two-team game and is forced back to [RED_TURN] in
    single-team mode. *)
Theorem C3_own_word_continues g r t clue n answer i :
  Setup g -> Reachable g r ->
  pc r = InnerLoop t clue n ->
  answer_of t (self r) = Some answer -> answer <> "no comparisons" ->
  index (Str.strip (Str.upper answer)) (words_on_board (self r)) = Some i ->
  key_grid (self r) !! i = Some (team_name t) ->
  (count (own_marker t) (<[i := own_marker t]> (words_on_board (self r)))
   < quota t (self r))%nat ->
  exists g',
    _accept_guess (asked t (self r)) i (game_condition r) = Ok (game_condition r, g') /\
    words_on_board g' = <[i := own_marker t]> (words_on_board (self r)) /\
    let r' := after_guess t clue n answer i (game_condition r) g' r in
    step r = Running r' /\
    keeps_given (guesser_of t (self r')) = S (keeps_given (guesser_of t (self r))) /\
    move_history (self r') =
      (move_history (self r) ++
       [GuesserMove (team_name t +:+ "_Guesser") answer (own_marker t) (keep_of t g')])%list /\
    (keep_of t g' = true ->
       game_condition r' = game_condition r /\ pc r' = InnerLoop t clue n) /\
    (keep_of t g' = false ->
       pc r' = OuterLoop /\
       pass_turn false (game_condition r) = turn_of (other t) /\
       game_condition r' =
         if single_team (self r) then RED_TURN else turn_of (other t)).
Proof.
  intros HS HR Hpc Hans Hne Hidx Hkey Hcount.
  pose proof (reachable_inv g r HS HR) as Hinv.
  pose proof (inv_pc g r Hinv) as Hturn. rewrite Hpc in Hturn.
  pose proof (index_lt _ _ _ Hidx) as Hlt.
  remember (set_words_on_board (asked t (self r))
              (<[i := own_marker t]> (words_on_board (self r)))) as g' eqn:Eg'.
  assert (Hacc : _accept_guess (asked t (self r)) i (game_condition r) =
                 Ok (game_condition r, g')).
  { rewrite <- (words_on_board_asked t (self r)) in Hlt. rewrite Eg'. destruct t.
    - rewrite (accept_guess_red _ _ _ Hlt) by exact Hkey.
      rewrite decide_False by (simpl in *; lia). rewrite Hturn. reflexivity.
    - rewrite (accept_guess_blue _ _ _ Hlt) by exact Hkey.
      rewrite decide_False by (simpl in *; lia). rewrite Hturn. reflexivity. }
  assert (Hboard : words_on_board g' = <[i := own_marker t]> (words_on_board (self r)))
    by (rewrite Eg'; reflexivity).
  assert (Hsingle : single_team g' = single_team (self r))
    by (rewrite Eg'; destruct t; reflexivity).
  assert (Hkeeps : keeps_given (guesser_of t g') = keeps_given (guesser_of t (self r)))
    by (rewrite Eg'; destruct t; reflexivity).
  assert (Hhist : move_history g' = move_history (self r))
    by (rewrite Eg'; destruct t; reflexivity).
  clear Eg'.
  exists g'. split; [exact Hacc|]. split; [exact Hboard|]. intros r'.
  split; [apply (step_guess r t clue n Hpc answer i _ _ Hans Hne Hidx Hacc)|].
  split.
  { unfold r'. rewrite after_guess_keeps, decide_True by reflexivity.
    rewrite Hkeeps. reflexivity. }
  split.
  { unfold r'. rewrite after_guess_history, decide_True by reflexivity.
    rewrite Hboard, list_lookup_insert_eq, Hhist by exact Hlt. reflexivity. }
  split.
  - intros Hkeep. unfold r'.
    rewrite after_guess_condition, after_guess_pc, !decide_True, Hkeep by reflexivity.
    split; [|reflexivity]. unfold pass_turn. simpl. apply single_team_rule_keep.
    rewrite Hsingle, (inv_single g r Hinv). apply (inv_solo g r Hinv).
  - intros Hkeep. unfold r'.
    rewrite after_guess_condition, after_guess_pc, !decide_True, Hkeep by reflexivity.
    rewrite Hsingle, Hturn.
    split; [reflexivity|]. split; [destruct t; reflexivity|].
    destruct (single_team (self r)), t; reflexivity.
Qed.

(** Red guesses its own word APPLE, in a two-team game: its guesser is
    asked whether to go on. *)
Lemma C3_own_word_continues_witness :
  let g := Sample.game false [("fruit", 1%Z)] [] [Some "apple"] [false] [] [] in
  exists r', step (state_after 1 g) = Running r' /\
             keeps_given (guesser_of Red (self r')) = 1%nat.
Proof.
  intros g.
  destruct (C3_own_word_continues g (state_after 1 g) Red "fruit" 1%Z "apple" 0)
    as (g' & _ & _ & Hstep & Hasked & _).
  - apply sample_setup.
  - apply state_after_reachable. vm_compute. exact Logic.I.
  - reflexivity.
  - reflexivity.
  - discriminate.
  - vm_compute. reflexivity.
  - reflexivity.
  - vm_compute. lia.
  - eexists. split; [exact Hstep|]. rewrite Hasked. reflexivity.
Defined.

(** C4.  A guess that lands on a Civilian's cell reveals the cell, wins
    nothing, is recorded with the flag false -- [keep_guessing()] is not
    called -- and ends the guessing loop with the phase at the other
    team's turn; in single-team mode the phase is [RED_TURN]. *)
Theorem C4_civilian_passes_the_turn g r t clue n answer i :
  Setup g -> Reachable g r ->
  pc r = InnerLoop t clue n ->
  answer_of t (self r) = Some answer -> answer <> "no comparisons" ->
  index (Str.strip (Str.upper answer)) (words_on_board (self r)) = Some i ->
  key_grid (self r) !! i = Some "Civilian" ->
  exists r',
    step r = Running r' /\
    words_on_board (self r') = <[i := "*Civilian*"]> (words_on_board (self r)) /\
    game_over (game_condition r') = false /\
    move_history (self r') =
      (move_history (self r) ++
       [GuesserMove (team_name t +:+ "_Guesser") answer "*Civilian*" false])%list /\
    keeps_given (guesser_of t (self r')) = keeps_given (guesser_of t (self r)) /\
    pc r' = OuterLoop /\
    game_condition r' = if single_team (self r) then RED_TURN else turn_of (other t).
Proof.
  intros HS HR Hpc Hans Hne Hidx Hkey.
  pose proof (reachable_inv g r HS HR) as Hinv.
  pose proof (inv_pc g r Hinv) as Hturn. rewrite Hpc in Hturn.
  pose proof (index_lt _ _ _ Hidx) as Hlt.
  remember (set_words_on_board (asked t (self r))
              (<[i := "*Civilian*"]> (words_on_board (self r)))) as g' eqn:Eg'.
  assert (Hacc : _accept_guess (asked t (self r)) i (game_condition r) =
                 Ok (turn_of (other t), g')).
  { rewrite <- (words_on_board_asked t (self r)) in Hlt. rewrite Eg'.
    rewrite (accept_guess_civilian _ _ (game_condition r) Hlt "Civilian");
      try discriminate; [|destruct t; exact Hkey].
    rewrite words_on_board_asked, Hturn. destruct t; reflexivity. }
  assert (Hboard : words_on_board g' = <[i := "*Civilian*"]> (words_on_board (self r)))
    by (rewrite Eg'; reflexivity).
  assert (Hsingle : single_team g' = single_team (self r))
    by (rewrite Eg'; destruct t; reflexivity).
  assert (Hkeeps : keeps_given (guesser_of t g') = keeps_given (guesser_of t (self r)))
    by (rewrite Eg'; destruct t; reflexivity).
  assert (Hhist : move_history g' = move_history (self r))
    by (rewrite Eg'; destruct t; reflexivity).
  clear Eg'.
  assert (Hdiff : game_condition r <> turn_of (other t))
    by (rewrite Hturn; destruct t; discriminate).
  exists (after_guess t clue n answer i (turn_of (other t)) g' r).
  split; [apply (step_guess r t clue n Hpc answer i _ _ Hans Hne Hidx Hacc)|].
  rewrite after_guess_board, after_guess_history, after_guess_keeps,
          after_guess_pc, after_guess_condition, !decide_False by exact Hdiff.
  rewrite Hboard, list_lookup_insert_eq, Hhist, Hkeeps, Hsingle by exact Hlt.
  repeat split; destruct (single_team (self r)), t; reflexivity.
Qed.

(** Red guesses ROCK, a Civilian's cell. *)
Lemma C4_civilian_passes_the_turn_witness :
  let g := Sample.game false [("stone", 1%Z)] [] [Some "Rock"] [] [] [] in
  exists r', step (state_after 1 g) = Running r' /\ game_condition r' = BLUE_TURN.
Proof.
  intros g.
  destruct (C4_civilian_passes_the_turn g (state_after 1 g) Red "stone" 1%Z "Rock" 17)
    as (r' & Hstep & _ & _ & _ & _ & _ & Hc).
  - apply sample_setup.
  - apply state_after_reachable. vm_compute. exact Logic.I.
  - reflexivity.
  - reflexivity.
  - discriminate.
  - vm_compute. reflexivity.
  - reflexivity.
  - exists r'. split; [exact Hstep | exact Hc].
Defined.

(** C5.  A win is terminal.  In a reachable state whose phase is a win,
    the phase is one of [RED_WIN], [BLUE_WIN] and not both; in every state
    the run goes through afterwards the phase, the board, the key, the
    history, the turn count and the four roles are as they are now -- no
    guess is asked for or resolved -- and [run] returns within two
    steps. *)
Theorem C5_win_is_terminal g r :
  Setup g -> Reachable g r ->
  game_over (game_condition r) = true ->
  (game_condition r = RED_WIN \/ game_condition r = BLUE_WIN) /\
  ~ (game_condition r = RED_WIN /\ game_condition r = BLUE_WIN) /\
  (forall m r', steps m r = Running r' ->
     game_condition r' = game_condition r /\
     words_on_board (self r') = words_on_board (self r) /\
     move_history (self r') = move_history (self r) /\
     key_grid (self r') = key_grid (self r) /\
     guesser_red (self r') = guesser_red (self r) /\
     guesser_blue (self r') = guesser_blue (self r) /\
     codemaster_red (self r') = codemaster_red (self r) /\
     codemaster_blue (self r') = codemaster_blue (self r) /\
     turn_counter r' = turn_counter r) /\
  steps 2 r = Stopped.
Proof.
  intros HS HR Hover.
  pose proof (reachable_inv g r HS HR) as Hinv.
  pose proof (inv_pc g r Hinv) as Hpc.
  split; [destruct (game_condition r); auto; discriminate|].
  split; [intros [E1 E2]; congruence|].
  destruct (pc r) as [|t clue n|] eqn:Epc.
  - split; [intros m r'; apply after_win; assumption|].
    apply win_returns; assumption.
  - rewrite Hpc, game_over_turn in Hover. discriminate.
  - split.
    + intros m r' Hsteps. rewrite (steps_from_finished r m r' Epc Hsteps). auto 10.
    + simpl. unfold step. rewrite Epc. reflexivity.
Qed.

(** Blue guesses the Assassin's cell on its first guess: red has won. *)
Lemma C5_win_is_terminal_witness :
  let g := Sample.game false [("fruit", 1%Z)] [("sea", 1%Z)]
             [Some "rock"] [] [Some "zoo"] [] in
  game_condition (state_after 4 g) = RED_WIN /\ steps 2 (state_after 4 g) = Stopped.
Proof.
  intros g.
  destruct (C5_win_is_terminal g (state_after 4 g)) as (_ & _ & _ & Hstop).
  - apply sample_setup.
  - apply state_after_reachable. vm_compute. exact Logic.I.
  - vm_compute. reflexivity.
  - split; [vm_compute; reflexivity | exact Hstop].
Defined.

(** C6.  When [get_answer()] returns [None] or the string "no
    comparisons", the guessing loop is left at once: [keep_guessing()] is
    not called, nothing is appended to the history, and the board is as it
    was. *)
Theorem C6_no_guess_ends_the_round r t clue n :
  pc r = InnerLoop t clue n ->
  no_guess (answer_of t (self r)) = true ->
  exists r',
    step r = Running r' /\
    pc r' = OuterLoop /\
    keeps_given (guesser_red (self r')) = keeps_given (guesser_red (self r)) /\
    keeps_given (guesser_blue (self r')) = keeps_given (guesser_blue (self r)) /\
    move_history (self r') = move_history (self r) /\
    words_on_board (self r') = words_on_board (self r).
Proof.
  intros Hpc Hno. eexists. split; [apply (step_no_guess r t clue n Hpc Hno)|].
  destruct t; repeat split.
Qed.

(** Red's guesser answers "no comparisons" to its first clue. *)
Lemma C6_no_guess_ends_the_round_witness :
  let g := Sample.game false [("fruit", 1%Z)] [] [Some "no comparisons"] [] [] [] in
  exists r', step (state_after 1 g) = Running r' /\ pc r' = OuterLoop.
Proof.
  intros g.
  destruct (C6_no_guess_ends_the_round (state_after 1 g) Red "fruit" 1%Z)
    as (r' & Hstep & Hpc & _).
  - reflexivity.
  - reflexivity.
  - exists r'. split; [exact Hstep | exact Hpc].
Defined.




(** ** Single-team mode *)

Lemma after_guess_other_guesser t clue n answer i res g' r t' :
  t' <> t ->
  guesser_of t' (self (after_guess t clue n answer i res g' r)) = guesser_of t' g'.
Proof.
  intros Hne. unfold after_guess. case_decide; destruct t, t'; congruence || reflexivity.
Qed.

(** In single-team mode the roles of the blue team are never called. *)
Lemma solo_blue_idle g r :
  Setup g -> single_team g = true -> Reachable g r ->
  codemaster_blue (self r) = codemaster_blue g /\
  guesser_blue (self r) = guesser_blue g.
Proof.
  intros HS Hsolo. induction 1 as [|r r' HR [IHc IHg] Hstep]; [auto|].
  pose proof (reachable_inv g r HS HR) as Hinv.
  pose proof (inv_solo g r Hinv Hsolo) as Hnb.
  pose proof (inv_pc g r Hinv) as Hpc.
  destruct (step_cases r r' Hstep) as
    [_ _ ->|_ Hover ->|t clue n Epc _ ->|t clue n answer i res g' Epc _ _ Hi Hacc ->].
  - auto.
  - assert (Ht : acting_team (game_condition r) = Red)
      by (destruct (game_condition r); try reflexivity; discriminate || congruence).
    destruct (clue_turn_self_frame r) as (_ & _ & _ & _ & _ & _ & _ & _ & Eg & _).
    destruct (clue_turn_calls r) as [_ Eo]. rewrite Ht in Eo.
    specialize (Eo Blue). simpl in Eo. rewrite Eo, Eg by discriminate. auto.
  - rewrite Epc in Hpc. destruct t; [|simpl in Hpc; congruence]. auto.
  - rewrite Epc in Hpc. destruct t; [|simpl in Hpc; congruence].
    destruct (guess_effect r Red answer i res g' Hi Hacc) as (k & _ & _ & -> & _).
    destruct (after_guess_codemasters Red clue n answer i res
                (set_words_on_board (asked Red (self r))
                   (<[i := marker_of k]> (words_on_board (self r)))) r) as [_ ->].
    pose proof (after_guess_other_guesser Red clue n answer i res
                  (set_words_on_board (asked Red (self r))
                     (<[i := marker_of k]> (words_on_board (self r)))) r Blue) as Eg.
    simpl in Eg. rewrite Eg by discriminate. auto.
Qed.

(** C8.  In single-team mode the phase of a reachable state is never
    [BLUE_TURN]: the turn bound in the guessing loop is red's, the blue
    roles are never called, and whenever the rules of a two-team game
    would leave a resolved guess on [BLUE_TURN], line 363 makes it
    [RED_TURN]; any other phase, a win included, is left as it is. *)
Theorem C8_single_team_is_red_only g r :
  Setup g -> single_team g = true -> Reachable g r ->
  game_condition r <> BLUE_TURN /\
  (forall t clue n, pc r = InnerLoop t clue n -> t = Red) /\
  codemaster_blue (self r) = codemaster_blue g /\
  guesser_blue (self r) = guesser_blue g /\
  (forall r', step r = Running r' -> game_condition r' <> BLUE_TURN) /\
  (forall t clue n answer i res g',
     pc r = InnerLoop t clue n ->
     _accept_guess (asked t (self r)) i (game_condition r) = Ok (res, g') ->
     let handed := if decide (game_condition r = res)
                   then pass_turn (keep_of t g') (game_condition r) else res in
     let r' := after_guess t clue n answer i res g' r in
     (handed = BLUE_TURN -> game_condition r' = RED_TURN) /\
     (handed <> BLUE_TURN -> game_condition r' = handed)).
Proof.
  intros HS Hsolo HR.
  pose proof (reachable_inv g r HS HR) as Hinv.
  pose proof (inv_solo g r Hinv Hsolo) as Hnb.
  destruct (solo_blue_idle g r HS Hsolo HR) as [Hc Hg].
  split; [exact Hnb|]. split.
  { intros t clue n Epc. pose proof (inv_pc g r Hinv) as Hpc. rewrite Epc in Hpc.
    destruct t; [reflexivity|]. simpl in Hpc. congruence. }
  split; [exact Hc|]. split; [exact Hg|]. split.
  { intros r' Hstep.
    apply (inv_solo g r' (reachable_inv g r' HS (reach_step g r r' HR Hstep)) Hsolo). }
  intros t clue n answer i res g' Epc Hacc handed r'.
  assert (Hs : single_team g' = true).
  { apply accept_guess_Ok in Hacc as (k & _ & _ & -> & _). simpl.
    rewrite (inv_single g r Hinv). exact Hsolo. }
  unfold r'. rewrite after_guess_condition, Hs. fold handed.
  split; [intros ->; reflexivity|]. intros Hh. destruct handed; try reflexivity. congruence.
Qed.

(** A single-team game: red guesses ROCK, a Civilian's cell, and the turn
    is red's again. *)
Lemma C8_single_team_is_red_only_witness :
  let g := Sample.game true [("stone", 1%Z)] [] [Some "rock"] [] [] [] in
  game_condition (state_after 2 g) <> BLUE_TURN /\
  guesser_blue (self (state_after 2 g)) = guesser_blue g.
Proof.
  intros g.
  destruct (C8_single_team_is_red_only g (state_after 2 g)) as (H1 & _ & _ & H2 & _).
  - apply sample_setup.
  - reflexivity.
  - apply state_after_reachable. vm_compute. exact Logic.I.
  - split; [exact H1 | exact H2].
Defined.

(** ** The move history *)

(** A step leaves the history as it is, or appends the clue just given,
    or appends the guess just resolved. *)
Lemma step_history r r' :
  step r = Running r' ->
  move_history (self r') = move_history (self r) \/
  (exists who clue k,
     move_history (self r') = (move_history (self r) ++ [CodemasterMove who clue k])%list) \/
  (exists who answer w b,
     move_history (self r') = (move_history (self r) ++ [GuesserMove who answer w b])%list).
Proof.
  intros Hstep. destruct (step_cases r r' Hstep) as
    [_ _ ->|_ _ ->|t clue n _ _ ->|t clue n answer i res g' Hpc _ _ Hi Hacc ->].
  - left. reflexivity.
  - right. left. rewrite clue_turn_history. eauto.
  - left. apply asked_frame.
  - right. right. rewrite after_guess_history.
    destruct (guess_effect r t answer i res g' Hi Hacc) as (k & _ & _ & -> & _).
    simpl. destruct t; eauto.
Qed.

Lemma steps_history_prefix m r r' :
  steps m r = Running r' -> move_history (self r) `prefix_of` move_history (self r').
Proof.
  revert r. induction m as [|m IH]; simpl; intros r.
  - intros [= <-]. reflexivity.
  - destruct (step r) as [r1| |] eqn:Hstep; try discriminate.
    intros Hsteps. specialize (IH r1 Hsteps).
    etransitivity; [|exact IH].
    destruct (step_history r r1 Hstep) as [->|[(?&?&?&->)|(?&?&?&?&->)]];
      [reflexivity | apply prefix_app_r; reflexivity ..].
Qed.

(** The turn counter counts the calls of [get_clue()]. *)
Lemma clues_counted g r :
  Reachable g r ->
  (clues_given (codemaster_red (self r)) + clues_given (codemaster_blue (self r)) =
   clues_given (codemaster_red g) + clues_given (codemaster_blue g) + turn_counter r)%nat.
Proof.
  induction 1 as [|r r' HR IH Hstep]; [simpl; lia|].
  destruct (step_cases r r' Hstep) as
    [_ _ ->|_ _ ->|t clue n _ _ ->|t clue n answer i res g' Hpc _ _ Hi Hacc ->].
  - exact IH.
  - destruct (clue_turn_calls r) as [Hown Hoth].
    destruct (clue_turn_locals r) as (_ & -> & _).
    destruct (acting_team (game_condition r)).
    + specialize (Hoth Blue). simpl in Hown, Hoth. rewrite Hown, Hoth by discriminate. lia.
    + specialize (Hoth Red). simpl in Hown, Hoth. rewrite Hown, Hoth by discriminate. lia.
  - destruct t; exact IH.
  - destruct (after_guess_codemasters t clue n answer i res g' r) as [-> ->].
    rewrite after_guess_turn_counter.
    destruct (guess_effect r t answer i res g' Hi Hacc) as (k & _ & _ & -> & _).
    destruct t; exact IH.
Qed.

Lemma entries_length h : length h = (clue_entries h + guess_entries h)%nat.
Proof.
  unfold clue_entries, guess_entries. induction h as [|m h IH]; [reflexivity|].
  rewrite !filter_cons. destruct m; simpl; repeat case_decide; simpl; congruence || lia.
Qed.

(** C9.  The history only grows at its end: along a run a step leaves it
    as it is, or appends one clue entry, or appends one guess entry, so an
    earlier history is a prefix of every later one.  After a run prefix
    its clue entries are as many as the clues asked for ([turn_counter],
    the calls of [get_clue()]), its guess entries as many as the guesses
    resolved (the cells revealed), and its length is their sum. *)
Theorem C9_history_is_append_only g r m r' :
  Setup g -> Reachable g r -> steps m r = Running r' ->
  move_history (self r) `prefix_of` move_history (self r') /\
  (forall r'', step r' = Running r'' ->
     move_history (self r'') = move_history (self r') \/
     (exists who clue k,
        move_history (self r'') =
        (move_history (self r') ++ [CodemasterMove who clue k])%list) \/
     (exists who answer w b,
        move_history (self r'') =
        (move_history (self r') ++ [GuesserMove who answer w b])%list)) /\
  clue_entries (move_history (self r')) = turn_counter r' /\
  (clues_given (codemaster_red (self r')) + clues_given (codemaster_blue (self r')) =
   clues_given (codemaster_red g) + clues_given (codemaster_blue g) + turn_counter r')%nat /\
  guess_entries (move_history (self r')) = revealed_cells (words_on_board (self r')) /\
  length (move_history (self r')) =
    (turn_counter r' + revealed_cells (words_on_board (self r')))%nat.
Proof.
  intros HS HR Hsteps.
  pose proof (steps_reachable g m r r' HR Hsteps) as HR'.
  pose proof (reachable_inv g r' HS HR') as Hinv.
  split; [apply (steps_history_prefix m), Hsteps|].
  split; [apply step_history|].
  split; [apply (inv_clues g r' Hinv)|].
  split; [apply clues_counted, HR'|].
  split; [apply (inv_guesses g r' Hinv)|].
  rewrite entries_length, (inv_clues g r' Hinv), (inv_guesses g r' Hinv). reflexivity.
Qed.

(** Two clues and three guesses: five entries. *)
Lemma C9_history_is_append_only_witness :
  let g := Sample.game false [("fruit", 2%Z)] [("sea", 1%Z)]
             [Some "apple"; Some "rock"] [true] [Some "zoo"] [] in
  length (move_history (self (state_after 5 g))) = 5%nat.
Proof.
  intros g.
  destruct (C9_history_is_append_only g (start g) 5 (state_after 5 g))
    as (_ & _ & _ & _ & _ & Hlen).
  - apply sample_setup.
  - apply reach_start.
  - vm_compute. reflexivity.
  - rewrite Hlen. vm_compute. reflexivity.
Defined.

(** C10.  When [get_answer()] returns [None] or "no comparisons" the
    phase is left as it is: the loop goes back to its head, where the
    clue-giver of the same team is asked for the next clue, the other
    team's is not, and the turn is counted. *)
Theorem C10_no_guess_keeps_the_turn g r t clue n :
  Setup g -> Reachable g r ->
  pc r = InnerLoop t clue n ->
  no_guess (answer_of t (self r)) = true ->
  exists r1 r2,
    step r = Running r1 /\
    game_condition r1 = game_condition r /\
    pc r1 = OuterLoop /\
    step r1 = Running r2 /\
    game_condition r2 = game_condition r /\
    pc r2 = InnerLoop t (clue_of t (self r)).1 (clue_of t (self r)).2 /\
    clues_given (codemaster_of t (self r2)) = S (clues_given (codemaster_of t (self r))) /\
    codemaster_of (other t) (self r2) = codemaster_of (other t) (self r) /\
    turn_counter r2 = S (turn_counter r) /\
    move_history (self r2) =
      (move_history (self r) ++
       [CodemasterMove (team_name t +:+ "_Codemaster")
          (clue_of t (self r)).1 (clue_of t (self r)).2])%list.
Proof.
  intros HS HR Hpc Hno.
  pose proof (reachable_inv g r HS HR) as Hinv.
  pose proof (inv_pc g r Hinv) as Hturn. rewrite Hpc in Hturn.
  set (r1 := mkRun (asked t (self r)) (game_condition r) (turn_counter r) OuterLoop).
  assert (Hact : acting_team (game_condition r1) = t)
    by (simpl; rewrite Hturn; destruct t; reflexivity).
  exists r1, (clue_turn r1).
  split; [apply (step_no_guess r t clue n Hpc Hno)|].
  split; [reflexivity|]. split; [reflexivity|].
  split.
  { unfold step. simpl. rewrite Hturn, game_over_turn. reflexivity. }
  destruct (clue_turn_locals r1) as (Ec & Etc & Epc).
  destruct (clue_turn_calls r1) as (Eown & Eoth).
  pose proof (clue_turn_history r1) as Eh.
  rewrite Hact in Epc, Eown, Eoth, Eh.
  assert (Ecm : forall t', codemaster_of t' (self r1) = codemaster_of t' (self r))
    by (intros t'; destruct t, t'; reflexivity).
  assert (Ecl : clue_of t (self r1) = clue_of t (self r))
    by (unfold clue_of; rewrite Ecm; reflexivity).
  rewrite Ecl in Epc, Eh. rewrite Ecm in Eown.
  split; [exact Ec|]. split; [exact Epc|]. split; [exact Eown|].
  split; [rewrite Eoth by (destruct t; discriminate); apply Ecm|].
  split; [exact Etc|].
  rewrite Eh. destruct t; reflexivity.
Qed.

(** Blue's guesser has nothing to say: blue is asked for a second clue. *)
Lemma C10_no_guess_keeps_the_turn_witness :
  let g := Sample.game false [("stone", 1%Z)] [("sea", 1%Z); ("sky", 2%Z)]
             [Some "rock"] [] [None] [] in
  exists r1 r2, step (state_after 3 g) = Running r1 /\ step r1 = Running r2 /\
                pc r2 = InnerLoop Blue "sky" 2%Z.
Proof.
  intros g.
  destruct (C10_no_guess_keeps_the_turn g (state_after 3 g) Blue "sea" 1%Z)
    as (r1 & r2 & H1 & _ & _ & H2 & _ & Hpc & _).
  - apply sample_setup.
  - apply state_after_reachable. vm_compute. exact Logic.I.
  - reflexivity.
  - reflexivity.
  - exists r1, r2. split; [exact H1|]. split; [exact H2|]. exact Hpc.
Defined.

(** * Further properties of the engine *)

(** ** [_accept_guess]: bounds, frame, repetition *)

(** [_accept_guess] at a natural index: bounds and frame. *)
Lemma accept_guess_bounds g i c :
  ((length (key_grid g) <= i \/ length (words_on_board g) <= i)%nat <->
   _accept_guess g i c = Raise IndexError) /\
  ((i < length (key_grid g) /\ i < length (words_on_board g))%nat <->
   exists res g', _accept_guess g i c = Ok (res, g')) /\
  (forall res g', _accept_guess g i c = Ok (res, g') ->
     exists k, key_grid g !! i = Some k /\
       words_on_board g' !! i = Some (marker_of k) /\
       (forall j, j <> i -> words_on_board g' !! j = words_on_board g !! j) /\
       length (words_on_board g') = length (words_on_board g) /\
       g' = set_words_on_board g (words_on_board g')).
Proof.
  assert (Hok : forall res g', _accept_guess g i c = Ok (res, g') ->
     exists k, key_grid g !! i = Some k /\
       words_on_board g' !! i = Some (marker_of k) /\
       (forall j, j <> i -> words_on_board g' !! j = words_on_board g !! j) /\
       length (words_on_board g') = length (words_on_board g) /\
       g' = set_words_on_board g (words_on_board g')).
  { intros res g' (k & Hk & Hlt & -> & _)%accept_guess_Ok. exists k. simpl.
    split; [exact Hk|]. split; [apply list_lookup_insert_eq, Hlt|].
    split; [intros j Hj; apply list_lookup_insert_ne; congruence|].
    split; [apply length_insert|reflexivity]. }
  assert (Hraise : (length (key_grid g) <= i \/ length (words_on_board g) <= i)%nat ->
                   _accept_guess g i c = Raise IndexError).
  { intros Hout. unfold _accept_guess.
    destruct (key_grid g !! i) as [k|] eqn:Hk; [|reflexivity].
    apply lookup_lt_Some in Hk. rewrite decide_True by lia. reflexivity. }
  assert (Hin : (i < length (key_grid g) /\ i < length (words_on_board g))%nat ->
                exists res g', _accept_guess g i c = Ok (res, g')).
  { intros [Hk Hb]. unfold _accept_guess.
    destruct (key_grid g !! i) as [k|] eqn:Ek; [|apply lookup_ge_None in Ek; lia].
    rewrite decide_False by lia. repeat case_decide; eauto. }
  split; [|split; [|exact Hok]].
  - split; [exact Hraise|]. intros Hr.
    destruct (decide (i < length (key_grid g))%nat); [|lia].
    destruct (decide (i < length (words_on_board g))%nat); [|lia].
    destruct Hin as (res & g' & E); [auto|]. congruence.
  - split; [exact Hin|]. intros (res & g' & E).
    destruct (decide (i < length (key_grid g) /\ i < length (words_on_board g))%nat)
      as [|Hn]; [assumption|].
    rewrite Hraise in E by lia. discriminate.
Qed.

(** X1.  For an index that is not negative -- [run] passes the result of
    [list.index] -- [_accept_guess] raises exactly when the index is past
    the end of the key or of the board, and then it is [IndexError].
    Otherwise it returns, and all it changes of the game is the one cell
    at the index, which now shows the label of its key. *)
Theorem X1_accept_guess_bounds_and_frame g (guess_index : Z) c :
  (0 <= guess_index)%Z ->
  let i := Z.to_nat guess_index in
  ((Z.of_nat (length (key_grid g)) <= guess_index \/
    Z.of_nat (length (words_on_board g)) <= guess_index)%Z <->
   _accept_guess g i c = Raise IndexError) /\
  ((guess_index < Z.of_nat (length (key_grid g)) /\
    guess_index < Z.of_nat (length (words_on_board g)))%Z <->
   exists res g', _accept_guess g i c = Ok (res, g')) /\
  (forall res g', _accept_guess g i c = Ok (res, g') ->
     exists k, key_grid g !! i = Some k /\
       words_on_board g' !! i = Some (marker_of k) /\
       (forall j, j <> i -> words_on_board g' !! j = words_on_board g !! j) /\
       length (words_on_board g') = length (words_on_board g) /\
       g' = set_words_on_board g (words_on_board g')).
Proof.
  intros Hz i. destruct (accept_guess_bounds g i c) as (H1 & H2 & H3).
  split; [rewrite <- H1; unfold i; lia|].
  split; [rewrite <- H2; unfold i; lia|exact H3].
Qed.

(** Index 25 is past the end of a board of 25 cells. *)
Lemma X1_accept_guess_bounds_and_frame_witness :
  let g := Sample.game false [] [] [] [] [] [] in
  _accept_guess g 25 RED_TURN = Raise IndexError.
Proof.
  intros g.
  destruct (X1_accept_guess_bounds_and_frame g 25%Z RED_TURN) as ([H _] & _).
  - lia.
  - apply H. left. vm_compute. discriminate.
Defined.

(** X2.  Repeating [_accept_guess] on a cell it has just revealed changes
    nothing: the same verdict comes back and the game is as the first call
    left it, so a cell is not counted twice. *)
Theorem X2_accept_guess_repeated g i c res g' :
  _accept_guess g i c = Ok (res, g') ->
  _accept_guess g' i c = Ok (res, g').
Proof.
  intros (k & Hk & Hlt & Hg' & Hres)%accept_guess_Ok.
  assert (Hins : forall m, marker_of k = m ->
                 <[i := m]> (words_on_board g') = words_on_board g')
    by (intros m <-; rewrite Hg'; simpl; apply list_insert_insert_eq).
  assert (Heta : set_words_on_board g' (words_on_board g') = g')
    by (destruct g'; reflexivity).
  assert (Hlt' : (i < length (words_on_board g'))%nat)
    by (rewrite Hg'; simpl; rewrite length_insert; exact Hlt).
  assert (Hk' : key_grid g' !! i = Some k) by (rewrite Hg'; exact Hk).
  assert (Qr : num_red_words g' = num_red_words g) by (rewrite Hg'; reflexivity).
  assert (Qb : num_blue_words g' = num_blue_words g) by (rewrite Hg'; reflexivity).
  clear Hg'.
  destruct Hres as [[-> ->]|[[-> ->]|[[-> ->]|(Hr & Hb & Ha & ->)]]].
  - rewrite (accept_guess_red g' i c Hlt' Hk'), (Hins "*Red*" eq_refl), Heta, Qr.
    reflexivity.
  - rewrite (accept_guess_blue g' i c Hlt' Hk'), (Hins "*Blue*" eq_refl), Heta, Qb.
    reflexivity.
  - rewrite (accept_guess_assassin g' i c Hlt' Hk'), (Hins "*Assassin*" eq_refl), Heta.
    reflexivity.
  - rewrite (accept_guess_civilian g' i c Hlt' k Hk' Hr Hb Ha).
    rewrite (Hins "*Civilian*"), Heta; [reflexivity|].
    unfold marker_of. rewrite !decide_False by assumption. reflexivity.
Qed.

(** A Civilian's cell is revealed twice over. *)
Lemma X2_accept_guess_repeated_witness :
  let g := Sample.game false [] [] [] [] [] [] in
  exists g', _accept_guess g' 17 RED_TURN = Ok (BLUE_TURN, g').
Proof.
  intros g. eexists. apply (X2_accept_guess_repeated g 17 RED_TURN). reflexivity.
Defined.

(** ** Guesses on a team's cell *)

Lemma accept_guess_team g i c u :
  (i < length (words_on_board g))%nat ->
  key_grid g !! i = Some (team_name u) ->
  _accept_guess g i c =
  Ok (if decide (quota u g <= count (own_marker u) (<[i := own_marker u]> (words_on_board g)))%nat
      then win_of u else turn_of u,
      set_words_on_board g (<[i := own_marker u]> (words_on_board g))).
Proof.
  intros Hi Hk. destruct u; simpl in *.
  - rewrite (accept_guess_red g i c Hi Hk). reflexivity.
  - rewrite (accept_guess_blue g i c Hi Hk). reflexivity.
Qed.

(** What is left of a pass when the verdict differs from the phase. *)
Lemma after_guess_differs t clue n answer i res g' r :
  game_condition r <> res ->
  game_condition (after_guess t clue n answer i res g' r) =
    single_team_rule (single_team g') res /\
  pc (after_guess t clue n answer i res g' r) = OuterLoop /\
  keeps_given (guesser_of t (self (after_guess t clue n answer i res g' r))) =
    keeps_given (guesser_of t g') /\
  move_history (self (after_guess t clue n answer i res g' r)) =
    (move_history g' ++
     [GuesserMove (team_name t +:+ "_Guesser") answer
        (default "" (words_on_board g' !! i)) false])%list.
Proof.
  intros Hne.
  rewrite after_guess_condition, after_guess_pc, after_guess_keeps, after_guess_history.
  rewrite !decide_False by exact Hne. auto.
Qed.

(** X3.  A guess that lands on a cell of the other team reveals it, is
    recorded with the flag false without [keep_guessing()] being called,
    and ends the guessing loop: the other team has won if the cell
    completes its quota, and has the turn if not (in single-team mode the
    turn is red's). *)
Theorem X3_opponent_cell_hands_over g r t clue n answer i :
  Setup g -> Reachable g r ->
  pc r = InnerLoop t clue n ->
  answer_of t (self r) = Some answer -> answer <> "no comparisons" ->
  index (Str.strip (Str.upper answer)) (words_on_board (self r)) = Some i ->
  key_grid (self r) !! i = Some (team_name (other t)) ->
  exists r',
    step r = Running r' /\
    words_on_board (self r') = <[i := own_marker (other t)]> (words_on_board (self r)) /\
    move_history (self r') =
      (move_history (self r) ++
       [GuesserMove (team_name t +:+ "_Guesser") answer (own_marker (other t)) false])%list /\
    keeps_given (guesser_of t (self r')) = keeps_given (guesser_of t (self r)) /\
    pc r' = OuterLoop /\
    game_condition r' =
      if decide (quota (other t) (self r) <=
                 count (own_marker (other t)) (words_on_board (self r')))%nat
      then win_of (other t)
      else if single_team (self r) then RED_TURN else turn_of (other t).
Proof.
  intros HS HR Hpc Hans Hne Hidx Hkey.
  pose proof (reachable_inv g r HS HR) as Hinv.
  pose proof (inv_pc g r Hinv) as Hturn. rewrite Hpc in Hturn.
  pose proof (index_lt _ _ _ Hidx) as Hlt.
  remember (set_words_on_board (asked t (self r))
              (<[i := own_marker (other t)]> (words_on_board (self r)))) as g' eqn:Eg'.
  remember (if decide (quota (other t) (self r) <=
                       count (own_marker (other t))
                         (<[i := own_marker (other t)]> (words_on_board (self r))))%nat
            then win_of (other t) else turn_of (other t)) as res eqn:Eres.
  assert (Hacc : _accept_guess (asked t (self r)) i (game_condition r) = Ok (res, g')).
  { rewrite (accept_guess_team _ i _ (other t));
      rewrite ?words_on_board_asked; [|exact Hlt|destruct t; exact Hkey].
    rewrite Eres, Eg'. destruct t; reflexivity. }
  assert (Hboard : words_on_board g' = <[i := own_marker (other t)]> (words_on_board (self r)))
    by (rewrite Eg'; reflexivity).
  assert (Hsingle : single_team g' = single_team (self r))
    by (rewrite Eg'; destruct t; reflexivity).
  assert (Hkeeps : keeps_given (guesser_of t g') = keeps_given (guesser_of t (self r)))
    by (rewrite Eg'; destruct t; reflexivity).
  assert (Hhist : move_history g' = move_history (self r))
    by (rewrite Eg'; destruct t; reflexivity).
  clear Eg'.
  assert (Hdiff : game_condition r <> res)
    by (rewrite Hturn, Eres; case_decide; destruct t; discriminate).
  destruct (after_guess_differs t clue n answer i res g' r Hdiff) as (Ec & Ep & Ek & Eh).
  exists (after_guess t clue n answer i res g' r).
  split; [apply (step_guess r t clue n Hpc answer i _ _ Hans Hne Hidx Hacc)|].
  rewrite after_guess_board, Ec, Ep, Ek, Eh, Hboard, Hhist, Hkeeps, Hsingle.
  rewrite list_lookup_insert_eq by exact Hlt.
  repeat (split; [reflexivity|]).
  rewrite Eres. case_decide; destruct (single_team (self r)), t; reflexivity.
Qed.

(** Red guesses KING, a cell of the blue team. *)
Lemma X3_opponent_cell_hands_over_witness :
  let g := Sample.game false [("crown", 1%Z)] [] [Some "king"] [] [] [] in
  exists r', step (state_after 1 g) = Running r' /\ pc r' = OuterLoop.
Proof.
  intros g.
  destruct (X3_opponent_cell_hands_over g (state_after 1 g) Red "crown" 1%Z "king" 10)
    as (r' & Hstep & _ & _ & _ & Hpc & _).
  - apply sample_setup.
  - apply state_after_reachable. vm_compute. exact Logic.I.
  - reflexivity.
  - reflexivity.
  - discriminate.
  - vm_compute. reflexivity.
  - reflexivity.
  - exists r'. split; [exact Hstep | exact Hpc].
Defined.

(** X4.  A guess on a cell of the guessing team that completes its quota
    wins the game: the phase is that team's win, the guess is recorded
    with the flag false, [keep_guessing()] is not called, and [run]
    returns with [game_winner] naming the team. *)
Theorem X4_last_own_cell_wins g r t clue n answer i :
  Setup g -> Reachable g r ->
  pc r = InnerLoop t clue n ->
  answer_of t (self r) = Some answer -> answer <> "no comparisons" ->
  index (Str.strip (Str.upper answer)) (words_on_board (self r)) = Some i ->
  key_grid (self r) !! i = Some (team_name t) ->
  (quota t (self r) <=
   count (own_marker t) (<[i := own_marker t]> (words_on_board (self r))))%nat ->
  exists r',
    step r = Running r' /\
    words_on_board (self r') = <[i := own_marker t]> (words_on_board (self r)) /\
    game_condition r' = win_of t /\
    move_history (self r') =
      (move_history (self r) ++
       [GuesserMove (team_name t +:+ "_Guesser") answer (own_marker t) false])%list /\
    keeps_given (guesser_of t (self r')) = keeps_given (guesser_of t (self r)) /\
    steps 1 r' = Running (finish r') /\
    game_winner (self (finish r')) = Some (match t with Red => "R" | Blue => "B" end) /\
    steps 2 r' = Stopped.
Proof.
  intros HS HR Hpc Hans Hne Hidx Hkey Hfull.
  pose proof (reachable_inv g r HS HR) as Hinv.
  pose proof (inv_pc g r Hinv) as Hturn. rewrite Hpc in Hturn.
  pose proof (index_lt _ _ _ Hidx) as Hlt.
  remember (set_words_on_board (asked t (self r))
              (<[i := own_marker t]> (words_on_board (self r)))) as g' eqn:Eg'.
  assert (Hacc : _accept_guess (asked t (self r)) i (game_condition r) = Ok (win_of t, g')).
  { rewrite (accept_guess_team _ i _ t);
      rewrite ?words_on_board_asked; [|exact Hlt|destruct t; exact Hkey].
    rewrite Eg'. rewrite decide_True; [reflexivity|]. destruct t; exact Hfull. }
  assert (Hboard : words_on_board g' = <[i := own_marker t]> (words_on_board (self r)))
    by (rewrite Eg'; reflexivity).
  assert (Hkeeps : keeps_given (guesser_of t g') = keeps_given (guesser_of t (self r)))
    by (rewrite Eg'; destruct t; reflexivity).
  assert (Hhist : move_history g' = move_history (self r))
    by (rewrite Eg'; destruct t; reflexivity).
  clear Eg'.
  assert (Hdiff : game_condition r <> win_of t)
    by (rewrite Hturn; destruct t; discriminate).
  destruct (after_guess_differs t clue n answer i (win_of t) g' r Hdiff) as (Ec & Ep & Ek & Eh).
  rewrite single_team_rule_win in Ec by (destruct t; reflexivity).
  set (r' := after_guess t clue n answer i (win_of t) g' r) in *.
  assert (Hover : game_over (game_condition r') = true)
    by (rewrite Ec; destruct t; reflexivity).
  exists r'.
  split; [apply (step_guess r t clue n Hpc answer i _ _ Hans Hne Hidx Hacc)|].
  split; [unfold r'; rewrite after_guess_board; exact Hboard|].
  split; [exact Ec|].
  split; [rewrite Eh, Hboard, Hhist, list_lookup_insert_eq by exact Hlt; reflexivity|].
  split; [rewrite Ek; exact Hkeeps|].
  destruct (win_returns r' Hover Ep) as [H1 H2].
  split; [exact H1|]. split; [|exact H2].
  unfold finish. simpl. rewrite Ec. destruct t; reflexivity.
Qed.

(** Red names its nine words one after the other. *)
Lemma X4_last_own_cell_wins_witness :
  let g := Sample.game false [("all", 9%Z)] []
             [Some "apple"; Some "bank"; Some "cat"; Some "dog"; Some "eagle";
              Some "fan"; Some "gold"; Some "horn"; Some "ice"]
             [true; true; true; true; true; true; true; true] [] [] in
  exists r', step (state_after 9 g) = Running r' /\ game_condition r' = RED_WIN.
Proof.
  intros g.
  destruct (X4_last_own_cell_wins g (state_after 9 g) Red "all" 9%Z "ice" 8)
    as (r' & Hstep & _ & Hc & _).
  - apply sample_setup.
  - apply state_after_reachable. vm_compute. exact Logic.I.
  - vm_compute. reflexivity.
  - vm_compute. reflexivity.
  - discriminate.
  - vm_compute. reflexivity.
  - vm_compute. reflexivity.
  - vm_compute. lia.
  - exists r'. split; [exact Hstep | exact Hc].
Defined.

(** ** What [run] asks of [_accept_guess], and what it accepts *)

(** X5.  In a game built by [__init__] no subscript of [_accept_guess]
    is out of range when [run] calls it: whatever word line 341 looks up,
    the index [list.index] finds has a key and a cell, and
    [_accept_guess] returns a verdict.  The guessing loop raises no
    [IndexError]. *)
Theorem X5_accept_guess_returns_in_run g r t x i :
  Setup g -> Reachable g r ->
  index x (words_on_board (self r)) = Some i ->
  (i < length (words_on_board (self r)))%nat /\
  (i < length (key_grid (self r)))%nat /\
  exists res g', _accept_guess (asked t (self r)) i (game_condition r) = Ok (res, g').
Proof.
  intros HS HR Hi.
  pose proof (reachable_inv g r HS HR) as Hinv.
  pose proof (setup_facts g HS) as F.
  apply index_lt in Hi.
  assert (Hlen : (length (words_on_board (self r)) <= length (key_grid (self r)))%nat).
  { rewrite (inv_key g r Hinv), (inv_length g r Hinv). apply (setup_length g F). }
  split; [exact Hi|]. split; [lia|].
  apply accept_guess_no_raise.
  - rewrite words_on_board_asked. exact Hi.
  - rewrite words_on_board_asked, (proj1 (proj2 (asked_frame t (self r)))). exact Hlen.
Qed.

(** Red has revealed APPLE; ZOO is found in the last cell, which has a
    key. *)
Lemma X5_accept_guess_returns_in_run_witness :
  let g := Sample.game false [("fruit", 2%Z)] [] [Some "apple"] [true] [] [] in
  exists res g',
    _accept_guess (asked Red (self (state_after 2 g))) 24
      (game_condition (state_after 2 g)) = Ok (res, g').
Proof.
  intros g.
  destruct (X5_accept_guess_returns_in_run g (state_after 2 g) Red "ZOO" 24)
    as (_ & _ & H).
  - apply sample_setup.
  - apply state_after_reachable. vm_compute. exact Logic.I.
  - vm_compute. reflexivity.
  - exact H.
Defined.

Lemma index_unique x (l : list string) i :
  l !! i = Some x -> (forall j, l !! j = Some x -> j = i) -> index x l = Some i.
Proof.
  intros Hi Huniq. destruct (index x l) as [j|] eqn:Hj.
  - apply index_Some in Hj as [Hj _]. rewrite (Huniq j Hj). reflexivity.
  - apply index_None in Hj. exfalso. apply Hj. eapply list_elem_of_lookup_2, Hi.
Qed.

(** An answer that names a cell of the board is accepted. *)
Lemma named_cell_step g r t clue n answer i :
  Setup g -> Reachable g r ->
  pc r = InnerLoop t clue n ->
  answer_of t (self r) = Some answer -> answer <> "no comparisons" ->
  words_on_board (self r) !! i = Some (Str.strip (Str.upper answer)) ->
  exists r' k,
    step r = Running r' /\
    words_on_board g !! i = Some (Str.strip (Str.upper answer)) /\
    key_grid g !! i = Some k /\
    words_on_board (self r') = <[i := marker_of k]> (words_on_board (self r)) /\
    (forall j, j <> i -> words_on_board (self r') !! j = words_on_board (self r) !! j) /\
    revealed_cells (words_on_board (self r')) = S (revealed_cells (words_on_board (self r))).
Proof.
  intros HS HR Hpc Hans Hne Hcell.
  pose proof (reachable_inv g r HS HR) as Hinv.
  pose proof (setup_facts g HS) as F.
  assert (Horig : forall j, words_on_board (self r) !! j = Some (Str.strip (Str.upper answer)) ->
                  words_on_board g !! j = Some (Str.strip (Str.upper answer))).
  { intros j Hj. destruct (inv_cells g r Hinv j _ Hj) as [H|(k & _ & Ek)]; [exact H|].
    exfalso. apply (normalised_not_marker answer). rewrite Ek. apply marker_of_is_marker. }
  assert (Hidx : index (Str.strip (Str.upper answer)) (words_on_board (self r)) = Some i).
  { apply index_unique; [exact Hcell|]. intros j Hj.
    apply (NoDup_lookup _ _ _ _ (setup_nodup g F) (Horig j Hj) (Horig i Hcell)). }
  pose proof (index_lt _ _ _ Hidx) as Hlt.
  destruct (accept_guess_no_raise (asked t (self r)) i (game_condition r))
    as (res & g' & Hacc).
  { rewrite words_on_board_asked. exact Hlt. }
  { rewrite words_on_board_asked, (proj1 (proj2 (asked_frame t (self r)))).
    rewrite (inv_key g r Hinv), (inv_length g r Hinv). apply (setup_length g F). }
  destruct (guess_effect r t answer i res g' Hidx Hacc) as (k & Hk & _ & Hg' & _).
  exists (after_guess t clue n answer i res g' r), k.
  split; [apply (step_guess r t clue n Hpc answer i _ _ Hans Hne Hidx Hacc)|].
  split; [apply Horig, Hcell|].
  split; [rewrite <- (inv_key g r Hinv); exact Hk|].
  rewrite after_guess_board, Hg'. simpl.
  split; [reflexivity|].
  split; [intros j Hj; apply list_lookup_insert_ne; congruence|].
  apply (revealed_cells_reveal _ _ answer), Hcell.
Qed.

(** X6.  An answer of the ASCII range that reads (upper-cased and
    stripped) as the word shown on a cell is always accepted: that cell
    was unrevealed, it now shows the label of its key, every other cell is
    as it was, and one more cell is revealed. *)
Theorem X6_named_cell_is_revealed g r t clue n answer i :
  Setup g -> Reachable g r ->
  pc r = InnerLoop t clue n ->
  answer_of t (self r) = Some answer -> answer <> "no comparisons" ->
  ascii_only answer = true ->
  words_on_board (self r) !! i = Some (Str.strip (Str.upper answer)) ->
  exists r' k,
    step r = Running r' /\
    words_on_board g !! i = Some (Str.strip (Str.upper answer)) /\
    key_grid g !! i = Some k /\
    words_on_board (self r') = <[i := marker_of k]> (words_on_board (self r)) /\
    (forall j, j <> i -> words_on_board (self r') !! j = words_on_board (self r) !! j) /\
    revealed_cells (words_on_board (self r')) = S (revealed_cells (words_on_board (self r))).
Proof.
  intros HS HR Hpc Hans Hne _ Hw.
  exact (named_cell_step g r t clue n answer i HS HR Hpc Hans Hne Hw).
Qed.

(** Red answers " Cat ": the cell showing CAT is revealed. *)
Lemma X6_named_cell_is_revealed_witness :
  let g := Sample.game false [("pet", 1%Z)] [] [Some " Cat "] [false] [] [] in
  exists r', step (state_after 1 g) = Running r' /\
             revealed_cells (words_on_board (self r')) = 1%nat.
Proof.
  intros g.
  destruct (X6_named_cell_is_revealed g (state_after 1 g) Red "pet" 1%Z " Cat " 2)
    as (r' & k & Hstep & _ & _ & _ & _ & Hrev).
  - apply sample_setup.
  - apply state_after_reachable. vm_compute. exact Logic.I.
  - reflexivity.
  - reflexivity.
  - discriminate.
  - reflexivity.
  - vm_compute. reflexivity.
  - exists r'. split; [exact Hstep|]. rewrite Hrev. vm_compute. reflexivity.
Defined.

(** ** Cells over time *)

(** What a step leaves untouched in [self]. *)
Lemma step_frame r r' :
  step r = Running r' ->
  key_grid (self r') = key_grid (self r) /\
  single_team (self r') = single_team (self r) /\
  num_red_words (self r') = num_red_words (self r) /\
  num_blue_words (self r') = num_blue_words (self r) /\
  num_civilian_words (self r') = num_civilian_words (self r) /\
  num_assassin_words (self r') = num_assassin_words (self r) /\
  length (words_on_board (self r')) = length (words_on_board (self r)).
Proof.
  intros Hstep. destruct (step_cases r r' Hstep) as
    [_ _ ->|_ _ ->|t clue n _ _ ->|t clue n answer i res g' Hpc _ _ Hi Hacc ->].
  - repeat split.
  - destruct (clue_turn_self_frame r) as (-> & -> & -> & -> & -> & -> & -> & _).
    repeat split.
  - destruct t; repeat split.
  - destruct (guess_effect r t answer i res g' Hi Hacc) as (k & _ & _ & Hg' & _).
    destruct (after_guess_quota t clue n answer i res g' r) as (-> & -> & -> & ->).
    rewrite after_guess_key, after_guess_single, after_guess_board, Hg'. simpl.
    rewrite length_insert. destruct t; repeat split.
Qed.

(** X7.  The engine upper-cases the answer, never the board: a cell whose
    word holds an ASCII lower-case letter (a to z) can not be named by
    any answer, and shows its word in every state of the run. *)
Theorem X7_lower_case_cell_is_never_revealed g r i w :
  Reachable g r ->
  words_on_board g !! i = Some w -> Str.has_lower w = true ->
  words_on_board (self r) !! i = Some w /\
  forall answer, index (Str.strip (Str.upper answer)) (words_on_board (self r)) <> Some i.
Proof.
  intros HR Hw Hlow.
  assert (Hstill : words_on_board (self r) !! i = Some w).
  { induction HR as [|r r' HR IH Hstep]; [exact Hw|].
    destruct (step_board r r' Hstep) as
      [->|(t & clue & n & answer & j & k & res & g' & _ & Hj & _ & -> & _)]; [exact IH|].
    rewrite list_lookup_insert_ne; [exact IH|].
    intros ->. rewrite IH in Hj. injection Hj as ->.
    rewrite StrFacts.has_lower_normalised in Hlow. discriminate. }
  split; [exact Hstill|].
  intros answer [Hi _]%index_Some. rewrite Hstill in Hi. injection Hi as ->.
  rewrite StrFacts.has_lower_normalised in Hlow. discriminate.
Qed.

(** A board whose first word is written "Apple": answering APPLE is of
    no use. *)
Lemma X7_lower_case_cell_is_never_revealed_witness :
  let g := __init__ (mkCodemaster (script [] ("pass", 0%Z)) 0)
             (mkGuesser (script [Some "APPLE"] None) (script [] false) 0 0)
             (mkCodemaster (script [] ("pass", 0%Z)) 0)
             (mkGuesser (script [] None) (script [] false) 0 0)
             false ("Apple" :: Sample.pool) Sample.key in
  words_on_board (self (state_after 1 g)) !! 0%nat = Some "Apple".
Proof.
  intros g.
  apply (X7_lower_case_cell_is_never_revealed g (state_after 1 g) 0 "Apple").
  - apply state_after_reachable. vm_compute. exact Logic.I.
  - reflexivity.
  - reflexivity.
Defined.

Lemma step_cells r r' i w :
  step r = Running r' ->
  words_on_board (self r) !! i = Some w ->
  if is_marker w then words_on_board (self r') !! i = Some w
  else words_on_board (self r') !! i = Some w \/
       exists k, key_grid (self r) !! i = Some k /\
                 words_on_board (self r') !! i = Some (marker_of k).
Proof.
  intros Hstep Hw.
  destruct (step_board r r' Hstep) as
    [->|(t & clue & n & answer & j & k & res & g' & _ & Hj & Hk & -> & _)].
  { destruct (is_marker w); auto. }
  destruct (decide (j = i)) as [->|Hne].
  - rewrite Hw in Hj. injection Hj as ->. rewrite is_marker_normalised.
    right. exists k. split; [exact Hk|].
    apply list_lookup_insert_eq. eapply lookup_lt_Some, Hw.
  - rewrite list_lookup_insert_ne by exact Hne. destruct (is_marker w); auto.
Qed.

(** X8.  A reveal is for good.  Along a run the key and the length of the
    board stay as they are; a cell that shows a label shows the same label
    in every later state, and a cell that shows a word shows later either
    that word or the label of its key. *)
Theorem X8_reveal_is_permanent r m r' :
  steps m r = Running r' ->
  key_grid (self r') = key_grid (self r) /\
  length (words_on_board (self r')) = length (words_on_board (self r)) /\
  forall i w, words_on_board (self r) !! i = Some w ->
    if is_marker w then words_on_board (self r') !! i = Some w
    else words_on_board (self r') !! i = Some w \/
         exists k, key_grid (self r) !! i = Some k /\
                   words_on_board (self r') !! i = Some (marker_of k).
Proof.
  revert r. induction m as [|m IH]; simpl; intros r.
  - intros [= <-]. split; [reflexivity|]. split; [reflexivity|].
    intros i w Hw. destruct (is_marker w); auto.
  - destruct (step r) as [r1| |] eqn:Hstep; try discriminate.
    intros Hsteps. destruct (IH r1 Hsteps) as (Ek & El & Hcells).
    destruct (step_frame r r1 Hstep) as (Ek1 & _ & _ & _ & _ & _ & El1).
    split; [congruence|]. split; [congruence|].
    intros i w Hw. pose proof (step_cells r r1 i w Hstep Hw) as H1.
    destruct (is_marker w) eqn:Em.
    + specialize (Hcells i w H1). rewrite Em in Hcells. exact Hcells.
    + destruct H1 as [H1|(k & Hk & H1)].
      * specialize (Hcells i w H1). rewrite Em in Hcells.
        rewrite Ek1 in Hcells. exact Hcells.
      * specialize (Hcells i _ H1). rewrite is_marker_marker_of in Hcells.
        right. exists k. auto.
Qed.

(** Red reveals APPLE, then a Civilian; APPLE's cell still shows red's
    label when blue is about to play. *)
Lemma X8_reveal_is_permanent_witness :
  let g := Sample.game false [("fruit", 2%Z)] [("sea", 1%Z)]
             [Some "apple"; Some "rock"] [true] [] [] in
  words_on_board (self (state_after 4 g)) !! 0%nat = Some "*Red*".
Proof.
  intros g.
  destruct (X8_reveal_is_permanent (state_after 2 g) 2 (state_after 4 g)) as (_ & _ & H).
  - vm_compute. reflexivity.
  - apply (H 0%nat "*Red*"). vm_compute. reflexivity.
Defined.

(** ** The tally of [write_results] *)

Lemma tally_fold (board : list string) (acc : Tally) :
  red_result (fold_left tally_cell board acc) = (red_result acc + count "*Red*" board)%nat /\
  blue_result (fold_left tally_cell board acc) = (blue_result acc + count "*Blue*" board)%nat /\
  civ_result (fold_left tally_cell board acc) =
    (civ_result acc + count "*Civilian*" board)%nat /\
  assa_result (fold_left tally_cell board acc) =
    (assa_result acc + count "*Assassin*" board)%nat.
Proof.
  revert acc. induction board as [|w board IH]; intros acc; simpl; [lia|].
  destruct (IH (tally_cell acc w)) as (-> & -> & -> & ->).
  unfold tally_cell.
  destruct (decide (w = "*Red*")) as [->|?];
    [|destruct (decide (w = "*Blue*")) as [->|?];
      [|destruct (decide (w = "*Civilian*")) as [->|?];
        [|destruct (decide (w = "*Assassin*")) as [->|?]]]];
    simpl; repeat case_decide; try discriminate; try congruence; lia.
Qed.

(** The revealed cells are the cells showing one of the four labels. *)
Lemma revealed_cells_counts (board : list string) :
  revealed_cells board =
  (count "*Red*" board + count "*Blue*" board +
   count "*Civilian*" board + count "*Assassin*" board)%nat.
Proof.
  unfold revealed_cells. induction board as [|w board IH]; [reflexivity|].
  rewrite filter_cons. simpl.
  destruct (decide (w = "*Red*")) as [->|?]; [simpl; lia|].
  destruct (decide (w = "*Blue*")) as [->|?]; [simpl; lia|].
  destruct (decide (w = "*Civilian*")) as [->|?]; [simpl; lia|].
  destruct (decide (w = "*Assassin*")) as [->|?]; [simpl; lia|].
  rewrite decide_False; [lia|].
  intros E%is_marker_true. unfold markers in E.
  rewrite !elem_of_cons, elem_of_nil in E. tauto.
Qed.

(** X9.  The four counters of [write_results] are the numbers of cells
    showing each label.  At any point of a run they are within the quotas,
    they add up to the guesses recorded in the history, and the turn
    count written as TOTAL is the number of clues recorded. *)
Theorem X9_tally_matches_the_history g r :
  Setup g -> Reachable g r ->
  red_result (tally (self r)) = count "*Red*" (words_on_board (self r)) /\
  blue_result (tally (self r)) = count "*Blue*" (words_on_board (self r)) /\
  civ_result (tally (self r)) = count "*Civilian*" (words_on_board (self r)) /\
  assa_result (tally (self r)) = count "*Assassin*" (words_on_board (self r)) /\
  (red_result (tally (self r)) <= 9 /\ blue_result (tally (self r)) <= 8 /\
   civ_result (tally (self r)) <= 7 /\ assa_result (tally (self r)) <= 1)%nat /\
  (red_result (tally (self r)) + blue_result (tally (self r)) +
   civ_result (tally (self r)) + assa_result (tally (self r)))%nat =
    guess_entries (move_history (self r)) /\
  turn_counter r = clue_entries (move_history (self r)).
Proof.
  intros HS HR.
  pose proof (reachable_inv g r HS HR) as Hinv.
  destruct (reachable_within_quota g r HS HR) as (Br & Bb & Bc & Ba).
  unfold tally.
  destruct (tally_fold (words_on_board (self r)) (mkTally 0 0 0 0)) as (-> & -> & -> & ->).
  simpl. repeat (split; [reflexivity || lia|]).
  split.
  - rewrite (inv_guesses g r Hinv), revealed_cells_counts. reflexivity.
  - symmetry. apply (inv_clues g r Hinv).
Qed.

(** Two clues, three guesses: one red cell, one Civilian, the Assassin. *)
Lemma X9_tally_matches_the_history_witness :
  let g := Sample.game false [("fruit", 2%Z)] [("sea", 1%Z)]
             [Some "apple"; Some "rock"] [true] [Some "zoo"] [] in
  tally (self (state_after 5 g)) = mkTally 1 0 1 1.
Proof.
  intros g.
  destruct (X9_tally_matches_the_history g (state_after 5 g))
    as (Hr & Hb & Hc & Ha & _).
  - apply sample_setup.
  - apply state_after_reachable. vm_compute. exact Logic.I.
  - destruct (tally (self (state_after 5 g))) as [a b c d]. simpl in *.
    rewrite Hr, Hb, Hc, Ha. vm_compute. reflexivity.
Defined.

(** ** How long a game can be *)

(** Revealing the Assassin's cell ends the game. *)
Lemma assassin_ends g r :
  Setup g -> Reachable g r ->
  (1 <= count "*Assassin*" (words_on_board (self r)))%nat ->
  game_over (game_condition r) = true.
Proof.
  intros HS. induction 1 as [|r r' HR IH Hstep].
  - pose proof (setup_facts g HS) as F. simpl.
    rewrite (count_plain _ _ Assassin_marker (setup_plain g F)). lia.
  - pose proof (reachable_inv g r HS HR) as Hinv.
    destruct (step_cases r r' Hstep) as
      [_ _ ->|_ _ ->|t clue n _ _ ->|t clue n answer i res g' Hpc _ _ Hi Hacc ->].
    + exact IH.
    + destruct (clue_turn_self_frame r) as (-> & _).
      destruct (clue_turn_locals r) as (-> & _). exact IH.
    + simpl. rewrite ?words_on_board_asked. exact IH.
    + pose proof (inv_pc g r Hinv) as Hturn. rewrite Hpc in Hturn.
      destruct (guess_effect r t answer i res g' Hi Hacc) as (k & Hk & Hw & Hg' & Hres).
      assert (Hb : words_on_board g' = <[i := marker_of k]> (words_on_board (self r)))
        by (rewrite Hg'; reflexivity).
      rewrite after_guess_board, Hb, (count_reveal _ _ _ _ _ Hw Assassin_marker).
      rewrite after_guess_condition, Hturn.
      destruct (decide (marker_of k = "*Assassin*")) as [Ek|Ek].
      * intros _. apply marker_of_Assassin in Ek. subst k.
        destruct Hres as [[? _]|[[? _]|[[_ ->]|(_ & _ & ? & _)]]]; try discriminate; try congruence.
        rewrite ?Hturn. destruct t, (single_team g'); reflexivity.
      * intros Hc. rewrite Nat.add_0_r in Hc. specialize (IH Hc).
        rewrite Hturn, game_over_turn in IH. discriminate.
Qed.

(** While the game is on, at most 22 cells are revealed. *)
Lemma running_bound g r :
  Setup g -> Reachable g r -> game_over (game_condition r) = false ->
  (revealed_cells (words_on_board (self r)) <= 22)%nat.
Proof.
  intros HS HR Hon.
  pose proof (reachable_inv g r HS HR) as Hinv.
  pose proof (setup_facts g HS) as F.
  destruct (reachable_within_quota g r HS HR) as (_ & _ & Bc & _).
  assert (Hr : (count "*Red*" (words_on_board (self r)) < 9)%nat).
  { destruct (decide (9 <= count "*Red*" (words_on_board (self r)))%nat) as [H|]; [|lia].
    rewrite <- (setup_red g F) in H. apply (inv_red_win g r Hinv) in H.
    rewrite H in Hon. discriminate. }
  assert (Hb : (count "*Blue*" (words_on_board (self r)) < 8)%nat).
  { destruct (decide (8 <= count "*Blue*" (words_on_board (self r)))%nat) as [H|]; [|lia].
    rewrite <- (setup_blue g F) in H. apply (inv_blue_win g r Hinv) in H.
    rewrite H in Hon. discriminate. }
  assert (Ha : count "*Assassin*" (words_on_board (self r)) = 0%nat).
  { destruct (decide (1 <= count "*Assassin*" (words_on_board (self r)))%nat) as [H|]; [|lia].
    apply (assassin_ends g r HS HR) in H. congruence. }
  rewrite revealed_cells_counts. lia.
Qed.

(** X10.  No game records more than 23 guesses: while the phase is a turn
    at most 22 cells are revealed (8 red, 7 blue, 7 civilian, no
    assassin), and the guess that ends the game is the last. *)
Theorem X10_at_most_23_guesses g r :
  Setup g -> Reachable g r ->
  (guess_entries (move_history (self r)) <= 23)%nat /\
  (game_over (game_condition r) = false ->
   guess_entries (move_history (self r)) <= 22)%nat.
Proof.
  intros HS HR. split.
  - induction HR as [|r r' HR IH Hstep].
    + rewrite (inv_guesses g _ (reachable_inv g _ HS (reach_start g))).
      rewrite revealed_cells_plain; [lia|]. apply (setup_plain g (setup_facts g HS)).
    + pose proof (reachable_inv g r HS HR) as Hinv.
      destruct (game_over (game_condition r)) eqn:Hover.
      * destruct (step_cases r r' Hstep) as
          [_ _ ->|_ Hon ->|t clue n Hpc _ ->|t clue n answer i res g' Hpc _ _ Hi Hacc ->].
        -- exact IH.
        -- congruence.
        -- pose proof (inv_pc g r Hinv) as Hturn. rewrite Hpc in Hturn.
           rewrite Hturn, game_over_turn in Hover. discriminate.
        -- pose proof (inv_pc g r Hinv) as Hturn. rewrite Hpc in Hturn.
           rewrite Hturn, game_over_turn in Hover. discriminate.
      * pose proof (running_bound g r HS HR Hover) as Hb.
        rewrite <- (inv_guesses g r Hinv) in Hb.
        destruct (step_history r r' Hstep) as [->|[(?&?&?&->)|(?&?&?&?&->)]].
        -- lia.
        -- rewrite (proj2 (entries_clue _ _ _ _)). lia.
        -- rewrite (proj2 (entries_guess _ _ _ _ _)). lia.
  - intros Hon. rewrite (inv_guesses g r (reachable_inv g r HS HR)).
    apply (running_bound g r HS HR Hon).
Qed.

Lemma X10_at_most_23_guesses_witness :
  let g := Sample.game false [("fruit", 2%Z)] [("sea", 1%Z)]
             [Some "apple"; Some "rock"] [true] [Some "zoo"] [] in
  (guess_entries (move_history (self (state_after 5 g))) <= 23)%nat.
Proof.
  intros g.
  apply (X10_at_most_23_guesses g (state_after 5 g)).
  - apply sample_setup.
  - apply state_after_reachable. vm_compute. exact Logic.I.
Defined.

(** ** The board and the key of [__init__] *)

Lemma remove_dups_length_le (l : list string) :
  (length (remove_dups l) <= length l)%nat.
Proof.
  induction l as [|x l IH]; simpl; [lia|]. destruct (decide_rel _ _ _); simpl; lia.
Qed.

(** [len(temp) == len(set(temp))] holds exactly when no line is repeated. *)
Lemma remove_dups_length_eq (l : list string) :
  length l = length (remove_dups l) <-> NoDup l.
Proof.
  induction l as [|x l IH]; simpl.
  - split; [constructor|reflexivity].
  - pose proof (remove_dups_length_le l) as Hle. rewrite NoDup_cons.
    destruct (decide_rel _ _ _) as [Hin|Hout]; simpl.
    + split; [lia|]. intros [Hx _]. contradiction.
    + split.
      * intros E. split; [exact Hout|]. apply IH. lia.
      * intros [_ Hnd]. apply IH in Hnd. lia.
Qed.

(** X11.  The word list is refused, by the assertion of line 106, exactly
    when a line is repeated in it.  When it is accepted the board is the
    first 25 words of the shuffled list (all of them if there are fewer):
    its words are words of the list and no two cells show the same
    word. *)
Theorem X11_board_words_are_distinct lines shuffled :
  shuffled ≡ₚ lines ->
  (load_words lines shuffled = None <-> ~ NoDup lines) /\
  forall board, load_words lines shuffled = Some board ->
    board = take 25 shuffled /\
    NoDup board /\
    length board = Nat.min 25 (length lines) /\
    board ⊆ lines /\
    forall cmr gr cmb gb single key,
      words_on_board (__init__ cmr gr cmb gb single shuffled key) = board.
Proof.
  intros Hperm. unfold load_words. split.
  - case_decide as E; rewrite remove_dups_length_eq in E; split;
      try discriminate; tauto.
  - intros board. case_decide as E; [|discriminate]. intros [= <-].
    apply remove_dups_length_eq in E.
    assert (Hnd : NoDup shuffled) by (rewrite Hperm; exact E).
    split; [reflexivity|].
    split; [eapply sublist_NoDup; [exact Hnd|apply sublist_take]|].
    split; [rewrite length_take, (Permutation_length Hperm); reflexivity|].
    split; [rewrite <- Hperm; apply subseteq_take|].
    reflexivity.
Qed.

Lemma X11_board_words_are_distinct_witness :
  load_words ["SUN"; "MOON"; "SUN"] ["MOON"; "SUN"; "SUN"] = None.
Proof.
  apply (X11_board_words_are_distinct ["SUN"; "MOON"; "SUN"] ["MOON"; "SUN"; "SUN"]).
  - apply Permutation_swap.
  - intros H. apply NoDup_cons in H as [H _]. apply H. right. left.
Defined.

(** X12.  However line 113 shuffles it, the key has 25 cells: 9 say
    "Red", 8 "Blue", 7 "Civilian" and 1 "Assassin", and no cell says
    anything else -- so the last branch of [_accept_guess], taken for
    every key that is none of "Red", "Blue" and "Assassin", is taken for
    "Civilian" only, and every cell of the board has a key. *)
Theorem X12_key_has_the_quotas key :
  key ≡ₚ unshuffled_key 9 8 7 1 ->
  length key = 25%nat /\
  count "Red" key = 9%nat /\ count "Blue" key = 8%nat /\
  count "Civilian" key = 7%nat /\ count "Assassin" key = 1%nat /\
  (forall i k, key !! i = Some k -> k ∈ key_names) /\
  (forall i k, key !! i = Some k ->
     k <> "Red" -> k <> "Blue" -> k <> "Assassin" -> k = "Civilian") /\
  forall cmr gr cmb gb single temp i,
    (i < length (words_on_board (__init__ cmr gr cmb gb single temp key)))%nat ->
    is_Some (key_grid (__init__ cmr gr cmb gb single temp key) !! i).
Proof.
  intros Hperm.
  assert (Hnames : forall i k, key !! i = Some k -> k ∈ key_names).
  { intros i k Hk. apply list_elem_of_lookup_2 in Hk. rewrite Hperm in Hk.
    unfold unshuffled_key in Hk. simpl in Hk. unfold key_names.
    repeat (apply elem_of_cons in Hk as [->|Hk]; [rewrite !elem_of_cons; auto|]).
    apply elem_of_nil in Hk. destruct Hk. }
  split; [rewrite (Permutation_length Hperm); reflexivity|].
  rewrite !(count_Permutation _ _ _ Hperm).
  repeat (split; [reflexivity|]).
  split; [exact Hnames|]. split.
  - intros i k Hk Hr Hb Ha. apply Hnames in Hk. unfold key_names in Hk.
    rewrite !elem_of_cons, elem_of_nil in Hk. intuition congruence.
  - intros cmr gr cmb gb single temp i Hi. simpl in *.
    apply lookup_lt_is_Some. rewrite (Permutation_length Hperm).
    rewrite length_take in Hi. change (length (unshuffled_key 9 8 7 1)) with 25%nat. lia.
Qed.

Lemma X12_key_has_the_quotas_witness : length (rev (unshuffled_key 9 8 7 1)) = 25%nat.
Proof.
  apply (X12_key_has_the_quotas (rev (unshuffled_key 9 8 7 1))).
  symmetry. apply Permutation_rev.
Defined.

(** ** The return of [run] *)

(** X13.  [game_winner] is [None] for as long as [run] is running; when
    [run] has returned it is "R" with the phase [RED_WIN] or "B" with the
    phase [BLUE_WIN].  No game is won before the first clue: once the
    phase is a win the turn count is at least 1. *)
Theorem X13_winner_is_named_on_return g r :
  Setup g -> Reachable g r ->
  (pc r <> Finished -> game_winner (self r) = None) /\
  (pc r = Finished ->
   (game_condition r = RED_WIN /\ game_winner (self r) = Some "R") \/
   (game_condition r = BLUE_WIN /\ game_winner (self r) = Some "B")) /\
  (game_over (game_condition r) = true -> (1 <= turn_counter r)%nat).
Proof.
  intros HS HR.
  assert (H : (pc r <> Finished -> game_winner (self r) = None) /\
              (pc r = Finished ->
               (game_condition r = RED_WIN /\ game_winner (self r) = Some "R") \/
               (game_condition r = BLUE_WIN /\ game_winner (self r) = Some "B")) /\
              (game_over (game_condition r) = true \/
               (exists t clue n, pc r = InnerLoop t clue n) ->
               (1 <= turn_counter r)%nat)).
  { induction HR as [|r r' HR (IHa & IHb & IHc) Hstep].
    - destruct HS. simpl. split; [reflexivity|]. split; [discriminate|].
      intros [?|(? & ? & ? & ?)]; discriminate.
    - destruct (step_cases r r' Hstep) as
        [Hpc Hover ->|Hpc Hover ->|t clue n Hpc _ ->|t clue n answer i res g' Hpc _ _ Hi Hacc ->].
      + simpl. split; [congruence|]. split.
        * intros _. destruct (game_condition r); try discriminate; auto.
        * intros [_|(? & ? & ? & ?)]; [auto|discriminate].
      + destruct (clue_turn_self_frame r) as (_ & _ & _ & _ & _ & _ & _ & _ & _ & ->).
        destruct (clue_turn_locals r) as (-> & -> & ->).
        split; [intros _; apply IHa; congruence|]. split; [discriminate|]. intros _. lia.
      + simpl.
        split; [intros _; apply IHa; congruence|]. split; [discriminate|].
        intros _. apply IHc. right. eauto.
      + rewrite after_guess_winner, after_guess_turn_counter, after_guess_pc.
        destruct (guess_effect r t answer i res g' Hi Hacc) as (k & _ & _ & -> & _).
        simpl.
        split; [intros _; apply IHa; congruence|]. split.
        * case_decide; [destruct (keep_of _ _)|]; discriminate.
        * intros _. apply IHc. right. eauto. }
  destruct H as (Ha & Hb & Hc). auto.
Qed.

(** Blue reveals the Assassin's cell: [run] returns and names red. *)
Lemma X13_winner_is_named_on_return_witness :
  let g := Sample.game false [("stone", 1%Z)] [("sea", 1%Z)]
             [Some "rock"] [] [Some "zoo"] [] in
  game_winner (self (state_after 5 g)) = Some "R".
Proof.
  intros g.
  destruct (X13_winner_is_named_on_return g (state_after 5 g)) as (_ & H & _).
  - apply sample_setup.
  - apply state_after_reachable. vm_compute. exact Logic.I.
  - destruct H as [[_ H]|[H _]].
    + reflexivity.
    + exact H.
    + vm_compute in H. discriminate.
Defined.

(** ** The shape of the history *)

Lemma history_snoc cur h e :
  history_ok cur (h ++ [e]) =
    history_ok cur h &&
    match e with
    | CodemasterMove who _ _ => bool_decide (is_Some (clue_team who))
    | GuesserMove who _ w b => guess_ok (last_team cur h) who w b
    end /\
  last_team cur (h ++ [e]) =
    match e with
    | CodemasterMove who _ _ => clue_team who
    | GuesserMove _ _ _ _ => last_team cur h
    end.
Proof.
  revert cur. induction h as [|m h IH]; intros cur.
  - destruct e as [who c k|who a w b]; simpl.
    + destruct (clue_team who); split; reflexivity.
    + rewrite andb_true_r. split; reflexivity.
  - destruct m as [who' c' k'|who' a' w' b']; simpl.
    + destruct (clue_team who') as [t'|] eqn:Et.
      * apply IH.
      * split; [reflexivity|]. apply (IH None).
    + destruct (IH cur) as [-> ->]. rewrite andb_assoc. split; reflexivity.
Qed.

Lemma clue_team_tag t : clue_team (team_name t +:+ "_Codemaster") = Some t.
Proof. destruct t; reflexivity. Qed.

(** X14.  The history reads as a sequence of turns.  If it is not empty
    it starts with a clue of red's clue-giver; every clue is tagged
    "Red_Codemaster" or "Blue_Codemaster"; every guess is tagged with the
    guesser of the team that gave the latest clue before it, carries one
    of the four reveal labels, and has the flag true only beside the
    guesser's own label.  Inside the guessing loop the latest clue is the
    one of the team whose turn it is. *)
Theorem X14_history_reads_as_turns g r :
  Setup g -> Reachable g r ->
  history_ok None (move_history (self r)) = true /\
  (forall t clue n, pc r = InnerLoop t clue n ->
     last_team None (move_history (self r)) = Some t) /\
  (forall e, head (move_history (self r)) = Some e ->
     exists clue n, e = CodemasterMove "Red_Codemaster" clue n) /\
  (move_history (self r) = [] -> r = start g).
Proof.
  intros HS HR.
  pose proof (setup_facts g HS) as F.
  induction HR as [|r r' HR (IHok & IHlast & IHhead & IHnil) Hstep].
  - simpl. rewrite (setup_history g F). simpl.
    split; [reflexivity|]. split; [discriminate|]. split; [discriminate|]. reflexivity.
  - pose proof (reachable_inv g r HS HR) as Hinv.
    destruct (step_cases r r' Hstep) as
      [Hpc Hover ->|Hpc Hover ->|t clue n Hpc _ ->|t clue n answer i res g' Hpc _ _ Hi Hacc ->].
    + simpl. split; [exact IHok|]. split; [discriminate|]. split; [exact IHhead|].
      intros E. rewrite (IHnil E) in Hover. discriminate.
    + rewrite clue_turn_history.
      destruct (clue_turn_locals r) as (_ & _ & ->).
      destruct (history_snoc None (move_history (self r))
                  (CodemasterMove (team_name (acting_team (game_condition r)) +:+ "_Codemaster")
                     (clue_of (acting_team (game_condition r)) (self r)).1
                     (clue_of (acting_team (game_condition r)) (self r)).2)) as [-> ->].
      rewrite clue_team_tag, IHok. simpl.
      split; [reflexivity|]. split; [intros t clue n [= <- _ _]; reflexivity|].
      split.
      * destruct (move_history (self r)) as [|e0 h0] eqn:Eh.
        -- rewrite (IHnil eq_refl). simpl. intros e [= <-]. eauto.
        -- simpl. intros e [= <-]. apply IHhead. reflexivity.
      * intros E. apply app_eq_nil in E as [_ E]. discriminate.
    + simpl.
      split; [exact IHok|]. split; [discriminate|]. split; [exact IHhead|].
      intros E. rewrite (IHnil E) in Hpc. discriminate.
    + pose proof (inv_pc g r Hinv) as Hturn. rewrite Hpc in Hturn.
      destruct (guess_effect r t answer i res g' Hi Hacc) as (k & Hk & Hw & Hg' & Hres).
      assert (Hh : move_history g' = move_history (self r))
        by (rewrite Hg'; destruct t; reflexivity).
      assert (Hcell : words_on_board g' !! i = Some (marker_of k)).
      { rewrite Hg'. simpl. apply list_lookup_insert_eq. eapply lookup_lt_Some, Hw. }
      rewrite after_guess_history, after_guess_pc, Hh, Hcell. simpl.
      destruct (history_snoc None (move_history (self r))
                  (GuesserMove (team_name t +:+ "_Guesser") answer (marker_of k)
                     (if decide (game_condition r = res) then keep_of t g' else false)))
        as [-> ->].
      rewrite IHok, (IHlast t clue n Hpc). simpl.
      split.
      * rewrite bool_decide_eq_true_2 by reflexivity. rewrite is_marker_marker_of. simpl.
        destruct (decide (game_condition r = res)) as [E|E]; [|reflexivity].
        destruct (keep_of t g'); [|reflexivity]. simpl.
        apply bool_decide_eq_true_2.
        rewrite Hturn in E, Hres. subst res.
        destruct Hres as [[-> Hr]|[[-> Hr]|[[-> Hr]|(_ & _ & _ & Hr)]]];
          destruct t; simpl in Hr; repeat case_decide; try discriminate; reflexivity.
      * split.
        -- intros t' clue' n'.
           destruct (decide (game_condition r = res)); [destruct (keep_of t g')|];
             try discriminate.
           intros E'. inversion E'. reflexivity.
        -- split.
           ++ destruct (move_history (self r)) as [|e0 h0] eqn:Eh.
              ** rewrite (IHnil eq_refl) in Hpc. discriminate.
              ** simpl. intros e [= <-]. apply IHhead. reflexivity.
           ++ intros E. apply app_eq_nil in E as [_ E]. discriminate.
Qed.

Lemma X14_history_reads_as_turns_witness :
  let g := Sample.game false [("fruit", 2%Z)] [("sea", 1%Z)]
             [Some "apple"; Some "rock"] [true] [Some "zoo"] [] in
  history_ok None (move_history (self (state_after 5 g))) = true.
Proof.
  intros g.
  apply (X14_history_reads_as_turns g (state_after 5 g)).
  - apply sample_setup.
  - apply state_after_reachable. vm_compute. exact Logic.I.
Defined.

(** ** Runs that end, runs that do not *)

Lemma steps_add n k r :
  steps (n + k) r = match steps n r with Running r' => steps k r' | o => o end.
Proof.
  revert r. induction n as [|n IH]; intros r; simpl; [reflexivity|].
  destruct (step r); [apply IH|reflexivity|reflexivity].
Qed.

(** X15.  Nothing bounds the passes: if red's guesser answers [None] or
    "no comparisons" every time, [run] never returns.  After every second
    step it is back at the head of the loop on red's turn, with one more
    clue asked for and recorded, and the board as it was. *)
Theorem X15_passing_forever g k :
  (forall n, no_guess (answer_script (guesser_red g) n) = true) ->
  exists r,
    steps (2 * k) (start g) = Running r /\
    pc r = OuterLoop /\
    game_condition r = RED_TURN /\
    turn_counter r = k /\
    clues_given (codemaster_red (self r)) = (clues_given (codemaster_red g) + k)%nat /\
    length (move_history (self r)) = (length (move_history g) + k)%nat /\
    words_on_board (self r) = words_on_board g.
Proof.
  intros Hpass.
  assert (H : exists r,
    steps (2 * k) (start g) = Running r /\
    pc r = OuterLoop /\ game_condition r = RED_TURN /\ turn_counter r = k /\
    clues_given (codemaster_red (self r)) = (clues_given (codemaster_red g) + k)%nat /\
    length (move_history (self r)) = (length (move_history g) + k)%nat /\
    words_on_board (self r) = words_on_board g /\
    answer_script (guesser_red (self r)) = answer_script (guesser_red g)).
  { induction k as [|k (r & Hsteps & Hpc & Hc & Htc & Hcl & Hlen & Hb & Hscript)].
    - exists (start g). simpl. repeat split; lia.
    - replace (2 * S k)%nat with (2 * k + 2)%nat by lia.
      rewrite steps_add, Hsteps.
      destruct (clue_turn_self_frame r) as (Eb & _ & _ & _ & _ & _ & _ & Eg & _).
      destruct (clue_turn_locals r) as (Ec & Etc & Epc).
      destruct (clue_turn_calls r) as (Ecl & _).
      pose proof (clue_turn_history r) as Eh.
      rewrite Hc in Epc, Ecl, Eh. change (acting_team RED_TURN) with Red in Epc, Ecl, Eh.
      assert (Hno : no_guess (answer_of Red (self (clue_turn r))) = true).
      { unfold answer_of. simpl. rewrite Eg, Hscript. apply Hpass. }
      exists (mkRun (asked Red (self (clue_turn r))) (game_condition (clue_turn r))
                (turn_counter (clue_turn r)) OuterLoop).
      split.
      + simpl. unfold step at 1. rewrite Hpc, Hc. simpl.
        rewrite (step_no_guess (clue_turn r) Red _ _ Epc Hno). reflexivity.
      + simpl. rewrite Ec, Etc, Eb, Eh, length_app. simpl in Ecl |- *.
        rewrite Ecl, Eg. repeat split; auto; lia. }
  destruct H as (r & H1 & H2 & H3 & H4 & H5 & H6 & H7 & _).
  exists r. auto 10.
Qed.

(** Red's guesser never answers: after 2000 steps a thousand clues have
    been asked for and [run] is where it started. *)
Lemma X15_passing_forever_witness :
  let g := Sample.game false [] [] [] [] [] [] in
  exists r, steps 2000 (start g) = Running r /\ turn_counter r = 1000%nat.
Proof.
  intros g.
  destruct (X15_passing_forever g 1000) as (r & Hsteps & _ & _ & Htc & _).
  - intros n. unfold g, Sample.game, script. simpl.
    destruct n; reflexivity.
  - exists r. split; [exact Hsteps | exact Htc].
Defined.

Lemma reachable_steps g r : Reachable g r -> exists k, steps k (start g) = Running r.
Proof.
  induction 1 as [|r r' _ [k Hk] Hstep].
  - exists 0%nat. reflexivity.
  - exists (k + 1)%nat. rewrite steps_add, Hk. simpl. rewrite Hstep. reflexivity.
Qed.

Lemma returns_within g :
  Setup g -> (forall r, Reachable g r -> names_a_cell r) ->
  forall fuel r, Reachable g r -> (steps_left r <= fuel)%nat ->
  exists m r', (m <= fuel)%nat /\ steps m r = Running r' /\ pc r' = Finished.
Proof.
  intros HS Hnames. induction fuel as [|fuel IH]; intros r HR Hleft.
  - exists 0%nat, r. split; [lia|]. split; [reflexivity|].
    unfold steps_left in Hleft. destruct (pc r); [|lia|reflexivity].
    destruct (game_over _); lia.
  - pose proof (reachable_inv g r HS HR) as Hinv.
    destruct (pc r) as [|t clue n|] eqn:Hpc.
    + destruct (game_over (game_condition r)) eqn:Hover.
      * exists 1%nat, (finish r). split; [lia|]. split; [|reflexivity].
        simpl. unfold step. rewrite Hpc, Hover. reflexivity.
      * assert (Hstep : step r = Running (clue_turn r))
          by (unfold step; rewrite Hpc, Hover; reflexivity).
        destruct (IH (clue_turn r)) as (m & r' & Hm & Hsteps & Hfin).
        { eapply reach_step; eassumption. }
        { unfold steps_left in *. rewrite Hpc, Hover in Hleft.
          destruct (clue_turn_locals r) as (_ & _ & ->).
          rewrite clue_turn_history, (proj2 (entries_clue _ _ _ _)). lia. }
        exists (S m), r'. split; [lia|]. split; [|exact Hfin].
        simpl. rewrite Hstep. exact Hsteps.
    + destruct (Hnames r HR t clue n Hpc) as (answer & Hans & Hne & Hin).
      apply list_elem_of_lookup_1 in Hin as [i Hi].
      destruct (named_cell_step g r t clue n answer i HS HR Hpc Hans Hne Hi)
        as (r1 & k & Hstep & _ & _ & _ & _ & Hrev).
      assert (HR1 : Reachable g r1) by (eapply reach_step; eassumption).
      pose proof (reachable_inv g r1 HS HR1) as Hinv1.
      pose proof (inv_pc g r Hinv) as Hturn. rewrite Hpc in Hturn.
      assert (Hon : game_over (game_condition r) = false)
        by (rewrite Hturn; apply game_over_turn).
      pose proof (running_bound g r HS HR Hon) as Hb.
      destruct (IH r1 HR1) as (m & r' & Hm & Hsteps & Hfin).
      { unfold steps_left in *. rewrite Hpc in Hleft.
        rewrite (inv_guesses g r1 Hinv1), Hrev.
        rewrite (inv_guesses g r Hinv) in Hleft.
        destruct (pc r1); [destruct (game_over (game_condition r1))| |]; lia. }
      exists (S m), r'. split; [lia|]. split; [|exact Hfin].
      simpl. rewrite Hstep. exact Hsteps.
    + exists 0%nat, r. split; [lia|]. split; [reflexivity|exact Hpc].
Qed.

(** X16.  If every answer the guessers give names a word of the board,
    [run] returns: a game built by [__init__] is over within 48 steps --
    at most 23 guesses, a clue before each, and the exit -- and a winner
    is named. *)
Theorem X16_run_returns g :
  Setup g -> (forall r, Reachable g r -> names_a_cell r) ->
  exists m r,
    (m <= 48)%nat /\ steps m (start g) = Running r /\ pc r = Finished /\
    steps (S m) (start g) = Stopped /\
    (game_winner (self r) = Some "R" \/ game_winner (self r) = Some "B").
Proof.
  intros HS Hnames.
  destruct (returns_within g HS Hnames 48 (start g)) as (m & r & Hm & Hsteps & Hfin).
  { apply reach_start. }
  { unfold steps_left. simpl.
    pose proof (inv_guesses g _ (reachable_inv g _ HS (reach_start g))) as E.
    simpl in E. rewrite E. lia. }
  exists m, r. split; [exact Hm|]. split; [exact Hsteps|]. split; [exact Hfin|].
  split.
  - replace (S m) with (m + 1)%nat by lia. rewrite steps_add, Hsteps.
    simpl. unfold step. rewrite Hfin. reflexivity.
  - assert (HR : Reachable g r) by (eapply steps_reachable; [apply reach_start|exact Hsteps]).
    clear Hnames. revert Hfin.
    induction HR as [|r0 r1 HR0 _ Hstep]; [discriminate|]. intros Hfin.
    destruct (step_cases r0 r1 Hstep) as
      [_ Hover ->|_ _ ->|t clue n _ _ ->|t clue n answer i res g' _ _ _ _ _ ->].
    + simpl. destruct (game_condition r0); try discriminate; auto.
    + destruct (clue_turn_locals r0) as (_ & _ & E). rewrite E in Hfin. discriminate.
    + discriminate.
    + rewrite after_guess_pc in Hfin.
      destruct (decide _); [destruct (keep_of _ _)|]; discriminate.
Qed.

(** Red's first answer is ZOO, the Assassin's cell: the game is over. *)
Lemma X16_run_returns_witness :
  let g := Sample.game false [("sea", 1%Z)] [] [Some "zoo"] [] [] [] in
  exists m r, (m <= 48)%nat /\ steps m (start g) = Running r /\ pc r = Finished.
Proof.
  intros g.
  destruct (X16_run_returns g) as (m & r & Hm & Hsteps & Hfin & _).
  - apply sample_setup.
  - intros r HR t clue n Hpc.
    destruct (reachable_steps g r HR) as [k Hk].
    destruct k as [|[|[|[|k]]]]; vm_compute in Hk; try discriminate;
      injection Hk as <-; simpl in Hpc; try discriminate.
    injection Hpc as <- _ _.
    exists "zoo". split; [reflexivity|]. split; [discriminate|].
    apply (bool_decide_unpack _). vm_compute. exact Logic.I.
  - exists m, r. split; [exact Hm|]. split; [exact Hsteps | exact Hfin].
Defined.
